(** * router.ts: pattern compilation, matching and sub-routing

    A shallow embedding of [src/router.ts].  JavaScript strings are
    modelled by [string] (a sequence of code units), arrays by lists (with
    [option] where an array has holes), an object used as a record
    ([Record<string, X>]) by the [gmap string X] of its own enumerable
    properties, a possibly-[undefined] string by [option string], a thrown
    exception by an [outcome], and a [Behavior<A>] by its value at every
    instant. *)

From Stdlib Require Import Ascii.
From stdpp Require Import base list strings gmap.

(** ** The JavaScript primitives the router relies on *)
Module Js.

(** [s.split(sep)] for a one-character separator.  The result is never
    empty: the empty string splits into one empty part. *)
Fixpoint split (sep : ascii) (s : string) : list string :=
  match s with
  | EmptyString => [EmptyString]
  | String c s' =>
      if decide (c = sep) then EmptyString :: split sep s'
      else match split sep s' with
           | [] => [String c EmptyString]
           | part :: parts => String c part :: parts
           end
  end.

(** [arr.join(sep)] on an array of strings. *)
Fixpoint join (sep : string) (arr : list string) : string :=
  match arr with
  | [] => ""
  | [part] => part
  | part :: arr' => part +:+ sep +:+ join sep arr'
  end.

(** [arr.slice(start)] and [arr.slice(0, stop)] for non-negative bounds. *)
Definition slice_from {A} (start : nat) (arr : list A) : list A := drop start arr.
Definition slice_to {A} (stop : nat) (arr : list A) : list A := take stop arr.

(** [s.substr(1)]. *)
Definition substr1 (s : string) : string :=
  match s with
  | EmptyString => ""
  | String _ s' => s'
  end.

(** A JavaScript array of strings that may have holes: [None] is an index
    that was never written. *)
Abbreviation array := (list (option string)).

(** [arr[i] = v]: writing past the end extends the array, leaving holes. *)
Definition array_set (i : nat) (v : string) (arr : array) : array :=
  if decide (i < length arr) then <[i := Some v]> arr
  else arr ++ replicate (i - length arr) None ++ [Some v].

(** [arr.every(cb)]: the callback is called on the indices that hold an
    element, holes are skipped. *)
Fixpoint every_from (k : nat) (cb : string → nat → bool) (arr : array) : bool :=
  match arr with
  | [] => true
  | None :: arr' => every_from (S k) cb arr'
  | Some v :: arr' => cb v k && every_from (S k) cb arr'
  end.
Definition every (cb : string → nat → bool) (arr : array) : bool :=
  every_from 0 cb arr.

(** [obj[k] = v] on an object literal, for a primitive [v].  The key
    ["__proto__"] reaches the setter inherited from [Object.prototype],
    which ignores primitive values: no own property is created. *)
Definition set {V} (k : string) (v : V) (obj : gmap string V) : gmap string V :=
  if decide (k = "__proto__") then obj else <[k := v]> obj.

(** [Object.keys(obj)], each key paired with [obj[key]].  The keys are
    distinct; the loops of the router do not depend on their order. *)
Definition entries {V} (obj : gmap string V) : list (string * V) :=
  map_to_list obj.

(** Exceptions. *)
Inductive exn :=
| Error (message : string)
| TypeError.

Inductive outcome (A : Type) :=
| Throw (e : exn)
| Return (a : A).
Global Arguments Throw {A} e.
Global Arguments Return {A} a.

End Js.

Import Js.

(** ** Behaviors (hareactive), by their value at each instant *)

Definition Time := nat.
Definition Behavior (A : Type) := Time → A.

Module Behavior.
Definition of_ {A} (a : A) : Behavior A := λ _, a.
Definition map {A B} (f : A → B) (b : Behavior A) : Behavior B := λ t, f (b t).
End Behavior.

(** ** router.ts *)

(** [fst(arr)] is [arr[0]], [undefined] on the empty string. *)
Definition fst (arr : string) : option ascii :=
  match arr with
  | EmptyString => None
  | String c _ => Some c
  end.

Record RouterConfig := { useHash : bool }.

Record Router := {
  prefixPath : string;
  path : Behavior string;
  config : RouterConfig
}.

(** [Record<string, string>] whose values come from array reads and may be
    [undefined]. *)
Abbreviation ParamsRecord := (gmap string (option string)).

Definition PathHandler (A : Type) := Router → ParamsRecord → A.

Record ParsedPathPattern (A : Type) := {
  pp_path : array;
  pp_params : gmap string nat;
  pp_length : nat;
  pp_handler : PathHandler A
}.
Arguments pp_path {A} _.
Arguments pp_params {A} _.
Arguments pp_length {A} _.
Arguments pp_handler {A} _.

Definition Handler := PathHandler.
(** [Routes<A>], given by [Object.keys(routes)] in the order JavaScript
    enumerates the keys (the order [find] scans them), each key with its
    handler. *)
Definition Routes (A : Type) := list (string * Handler A).

Definition is_param (part : string) : bool :=
  bool_decide (fst part = Some ":"%char).

(** The first loop of [readParams]. *)
Fixpoint readParams_loop (i : nat) (patternParts : list string)
    (paramRecord : gmap string nat) : gmap string nat :=
  match patternParts with
  | [] => paramRecord
  | part :: patternParts' =>
      readParams_loop (S i) patternParts'
        (if is_param part then Js.set (substr1 part) i paramRecord
         else paramRecord)
  end.

Definition readParams (pattern path : string) : ParamsRecord :=
  let patternParts := split "/" pattern in
  let paramRecord := readParams_loop 0 patternParts ∅ in
  let pathParts := split "/" path in
  foldl (λ params '(param, index), Js.set param (pathParts !! index) params)
        ∅ (entries paramRecord).

Definition parsePathParams (pattern : string) (locationBehavior : Behavior string)
    : Behavior ParamsRecord :=
  Behavior.map (λ location, readParams pattern location) locationBehavior.

(** The loop of [parsePathPattern]. *)
Fixpoint parsePathPattern_loop {A} (i : nat) (patternParts : list string)
    (p : ParsedPathPattern A) : ParsedPathPattern A :=
  match patternParts with
  | [] => p
  | part :: patternParts' =>
      parsePathPattern_loop (S i) patternParts'
        (if is_param part
         then {| pp_path := pp_path p;
                 pp_params := Js.set (substr1 part) i (pp_params p);
                 pp_length := pp_length p;
                 pp_handler := pp_handler p |}
         else {| pp_path := array_set i part (pp_path p);
                 pp_params := pp_params p;
                 pp_length := pp_length p;
                 pp_handler := pp_handler p |})
  end.

Definition parsePathPattern {A} (pattern : string) (handler : PathHandler A)
    : ParsedPathPattern A :=
  let patternParts := split "/" pattern in
  let p := {| pp_path := []; pp_params := ∅;
              pp_length := length patternParts; pp_handler := handler |} in
  if decide (pattern = "*") then p
  else parsePathPattern_loop 0 patternParts p.

(** The predicate given to [parsedRoutes.find] in [routePath]. *)
Definition compatible {A} (locationParts : list string) (p : ParsedPathPattern A) : bool :=
  every (λ part index, bool_decide (Some part = locationParts !! index)) (pp_path p).

(** The constants of the function mapped over [router.path] in [routePath],
    as they stand when it reaches [return match.handler(newRouter, params)]. *)
Record Locals (A : Type) := {
  match_ : ParsedPathPattern A;
  rest : string;
  matchedPath : string;
  newRouter : Router;
  params : ParamsRecord
}.
Arguments match_ {A} _.
Arguments rest {A} _.
Arguments matchedPath {A} _.
Arguments newRouter {A} _.
Arguments params {A} _.

Definition parseRoutes {A} (routes : Routes A) : list (ParsedPathPattern A) :=
  (λ '(path, handler), parsePathPattern path handler) <$> routes.

(** The body of the function mapped over [router.path], up to the final
    call.  Reading [match.length] when [find] returned [undefined] throws a
    [TypeError]. *)
Definition route {A} (parsedRoutes : list (ParsedPathPattern A)) (router : Router)
    (location : string) : outcome (Locals A) :=
  let locationParts := split "/" location in
  match List.find (compatible locationParts) parsedRoutes with
  | None => Throw TypeError
  | Some match_ =>
      let rest := "/" +:+ join "/" (slice_from (pp_length match_) locationParts) in
      let matchedPath := join "/" (slice_to (pp_length match_) locationParts) in
      let newRouter := {| prefixPath := prefixPath router +:+ matchedPath;
                          path := Behavior.of_ rest;
                          config := config router |} in
      let params :=
        foldl (λ params '(key, index), Js.set key (locationParts !! index) params)
              ∅ (entries (pp_params match_)) in
      Return {| match_ := match_; rest := rest; matchedPath := matchedPath;
                newRouter := newRouter; params := params |}
  end.

(** [return match.handler(newRouter, params)]. *)
Definition call_handler {A} (o : outcome (Locals A)) : outcome A :=
  match o with
  | Throw e => Throw e
  | Return l => Return (pp_handler (match_ l) (newRouter l) (params l))
  end.

Definition routePath {A} (routes : Routes A) (router : Router) : Behavior (outcome A) :=
  let parsedRoutes := parseRoutes routes in
  Behavior.map (λ location, call_handler (route parsedRoutes router location))
               (path router).

(** [createRouter], in a host that provides the two capability flags and
    the two location behaviors. *)
Section Host.
Variables supportHistory supportHash : bool.
Variables locationHashB locationB : Behavior string.

Definition createRouter (config : RouterConfig) : outcome Router :=
  if useHash config && negb supportHash then
    Throw (Error "No support for hash-routing.")
  else if negb supportHistory then
    Throw (Error "No support for history API.")
  else
    Return {| prefixPath := "";
              path := if useHash config then locationHashB else locationB;
              config := config |}.
End Host.


(** Nested routing: the handler matched at each level routes the next table
    on the sub-router it is given.  [descend] samples this chain at instant
    [t] and returns the innermost router with the matched path of every
    level, outermost first. *)
Fixpoint descend {A} (levels : list (Routes A)) (router : Router) (t : Time)
    : outcome (Router * list string) :=
  match levels with
  | [] => Return (router, [])
  | routes :: levels' =>
      match route (parseRoutes routes) router (path router t) with
      | Throw e => Throw e
      | Return l =>
          match descend levels' (newRouter l) t with
          | Throw e => Throw e
          | Return (inner, matched) => Return (inner, matchedPath l :: matched)
          end
      end
  end.

(** ** The matching rule in the words of the specification

    A pattern other than ["*"] constrains the location at every index where
    its own segment is a literal: the location must have that very segment
    there.  [literals_hold] is this test on the pattern string. *)
Fixpoint literals_from (i : nat) (patternParts locationParts : list string) : bool :=
  match patternParts with
  | [] => true
  | part :: patternParts' =>
      (is_param part || bool_decide (locationParts !! i = Some part))
      && literals_from (S i) patternParts' locationParts
  end.

Definition literals_hold (pattern : string) (locationParts : list string) : bool :=
  bool_decide (pattern = "*") || literals_from 0 (split "/" pattern) locationParts.

Definition only_literals (pattern : string) : Prop :=
  pattern ≠ "*" ∧ Forall (λ part, is_param part = false) (split "/" pattern).

(** [pattern] is the first route of the table that passes the literal test:
    no route enumerated before it does. *)
Definition first_compatible {A} (routes : Routes A) (locationParts : list string)
    (pattern : string) (handler : Handler A) : Prop :=
  ∃ before after,
    routes = before ++ (pattern, handler) :: after ∧
    Forall (λ r, literals_hold r.1 locationParts = false) before ∧
    literals_hold pattern locationParts = true.

(** ** Fixtures for the concrete scenarios *)

(** A root router, as [createRouter] returns it, whose location behavior
    stands at [location]. *)
Definition root (location : string) : Router :=
  {| prefixPath := ""; path := Behavior.of_ location;
     config := {| useHash := false |} |}.

(** A handler that returns what it is called with. *)
Definition observe : Handler (Router * ParamsRecord) := pair.

(** ** The rest of router.ts: the hash location, navigation, the route tree *)

Module JsString.

(** [str.indexOf(stop)]: the first index at which [stop] occurs in [str],
    [-1] when it does not occur. *)
Fixpoint indexOf (stop str : string) : Z :=
  if String.prefix stop str then 0%Z
  else match str with
       | EmptyString => (-1)%Z
       | String _ str' =>
           let i := indexOf stop str' in
           if decide (i = (-1)%Z) then (-1)%Z else (i + 1)%Z
       end.

(** [str.substr(start)] for a non-negative [start]. *)
Fixpoint substr (start : nat) (str : string) : string :=
  match start, str with
  | 0, _ => str
  | S start', String _ str' => substr start' str'
  | S _, EmptyString => ""
  end.

End JsString.

Definition takeUntilRight (stop str : string) : string :=
  JsString.substr (Z.to_nat (JsString.indexOf stop str + 1)) str.

(** The value [locationHashB] is created with, from [window.location.hash];
    an empty string is falsy, so [||] replaces it by "/". *)
Definition locationHashB_initial (hash : string) : string :=
  let taken := takeUntilRight "#" hash in
  if decide (taken = "") then "/" else taken.

(** What the "hashchange" listener pushes into [locationHashB], from
    [evt.newURL]. *)
Definition hashchange_pushed (newURL : string) : string :=
  takeUntilRight "#" newURL.

(** A [Stream<A>] by its occurrences, in the order they happen. *)
Definition Stream (A : Type) := list (Time * A).

Module Stream.
Definition map {A B} (f : A → B) (s : Stream A) : Stream B :=
  (λ '(t, a), (t, f a)) <$> s.
End Stream.

(** What the navigation functions do to the host. *)
Inductive effect :=
| SetHash (path : string)          (* window.location.hash = path *)
| PushLocationB (path : string)    (* locationB.push(path) *)
| PushState (url : string).        (* window.history.pushState({}, "", url) *)

(** An [IO<A>] by the effects it performs, in order, and its result. *)
Definition IO (A : Type) := (list effect * A)%type.

(** The assignment is the value of the arrow function. *)
Definition navigateHashIO (path : string) : IO (option string) :=
  ([SetHash path], Some path).

(** [pushState] returns [undefined]. *)
Definition navigateIO (path : string) : IO (option string) :=
  ([PushLocationB path; PushState path], None).

(** [performStreamOrdered]: the actions run in the order of the occurrences;
    the result is the stream of their values. *)
Fixpoint performStreamOrdered {A} (s : Stream (IO A)) : list effect * Stream A :=
  match s with
  | [] => ([], [])
  | (t, (effects, a)) :: s' =>
      let '(effects', results) := performStreamOrdered s' in
      (effects ++ effects', (t, a) :: results)
  end.

Definition navigate (router : Router) (pathStream : Stream string)
    : list effect * Stream (option string) :=
  let newUrl := Stream.map (λ path, prefixPath router +:+ path) pathStream in
  let navigateFn := if useHash (config router) then navigateHashIO else navigateIO in
  performStreamOrdered (Stream.map navigateFn newUrl).

(** The route tree.  The fields of a node are its own properties; [params]
    is keyed by segment indices. *)
#[warnings="-register-all"]
Inductive Tree (A : Type) := mkTree {
  t_params : gmap nat string;
  t_subtree : gmap string (Tree A);
  t_index : nat;
  t_handler : option (Handler A)
}.
Arguments mkTree {A} _ _ _ _.
Arguments t_params {A} _.
Arguments t_subtree {A} _.
Arguments t_index {A} _.
Arguments t_handler {A} _.

(** How the walk of [addPath] ended: on which object [parent.handler =
    handler] ran, if the walk got that far. *)
Inductive walk_end :=
| InTree                          (* on a node of the tree *)
| OnInherited (name : string)     (* on the object the inherited [name] denotes *)
| Threw (e : exn).                (* nowhere: the walk threw before *)

Section TreeOps.
Context {A : Type}.
(** The names every object inherits from [Object.prototype] in the host at
    the time of the call: [node in parent.subtree] holds for them although
    no route put them there. *)
Variable inherited : string → bool.

(** The [forEach] of [addPath], from segment [index] on, with [parent] the
    node the walk stands on.  The tree is updated in place: the result is
    [parent] as the walk leaves it, and how the walk ended.  When [node] is
    only an inherited name, [parent.subtree[node]] is not a node but the
    object that name denotes ([Object.prototype] itself for "__proto__", a
    built-in function for "constructor", "toString", ...), which has neither
    [params] nor [subtree]: the walk has left the tree, any further segment
    throws a [TypeError], and with no further segment [handler] is stored on
    that object, no node of the tree receiving it. *)
Fixpoint addPath_from (index : nat) (nodes : list string) (parent : Tree A)
    (handler : Handler A) : Tree A * walk_end :=
  match nodes with
  | [] => (mkTree (t_params parent) (t_subtree parent) (t_index parent) (Some handler),
           InTree)
  | node :: nodes' =>
      if is_param node then
        addPath_from (S index) nodes'
          (mkTree (<[index := substr1 node]> (t_params parent))
                  (t_subtree parent) (t_index parent) (t_handler parent))
          handler
      else
        match t_subtree parent !! node with
        | Some child =>
            let '(child', w) := addPath_from (S index) nodes' child handler in
            (mkTree (t_params parent) (<[node := child']> (t_subtree parent))
                    (t_index parent) (t_handler parent), w)
        | None =>
            if inherited node then
              (parent, match nodes' with
                       | [] => OnInherited node
                       | _ :: _ => Threw TypeError
                       end)
            else
              let '(child', w) :=
                addPath_from (S index) nodes' (mkTree ∅ ∅ index None) handler in
              (mkTree (t_params parent) (<[node := child']> (t_subtree parent))
                      (t_index parent) (t_handler parent), w)
        end
  end.

Definition addPath (tree : Tree A) (path : string) (handler : Handler A)
    : outcome (Tree A) :=
  match addPath_from 0 (split "/" path) tree handler with
  | (_, Threw e) => Throw e
  | (tree', _) => Return tree'
  end.

(** The inherited names once [addPath] has returned: a handler stored on
    [Object.prototype] makes "handler" a name that every object inherits. *)
Definition inherited_after (tree : Tree A) (path : string) (handler : Handler A)
    : string → bool :=
  match (addPath_from 0 (split "/" path) tree handler).2 with
  | OnInherited name =>
      if decide (name = "__proto__")
      then λ name', bool_decide (name' = "handler") || inherited name'
      else inherited
  | _ => inherited
  end.
End TreeOps.

(** The [reduce] of [buildTree] over [Object.keys(routes)]. *)
Fixpoint buildTree_from {A} (inherited : string → bool) (routes : Routes A)
    (tree : Tree A) : outcome (Tree A) :=
  match routes with
  | [] => Return tree
  | (route, handler) :: routes' =>
      match addPath inherited tree route handler with
      | Throw e => Throw e
      | Return tree' =>
          buildTree_from (inherited_after inherited tree route handler) routes' tree'
      end
  end.

Definition buildTree {A} (inherited : string → bool) (routes : Routes A)
    : outcome (Tree A) :=
  buildTree_from inherited routes (mkTree ∅ ∅ 0 None).

(** *** Reading the tree *)

(** The node reached from [tree] along the edges [edges]. *)
Fixpoint node_at {A} (edges : list string) (tree : Tree A) : option (Tree A) :=
  match edges with
  | [] => Some tree
  | edge :: edges' =>
      match t_subtree tree !! edge with
      | Some child => node_at edges' child
      | None => None
      end
  end.

(** The segments of a pattern that are not parameters: the edges [addPath]
    follows. *)
Definition literals_of (nodes : list string) : list string :=
  List.filter (λ node, negb (is_param node)) nodes.

(** No literal segment of [nodes] is a name that objects inherit. *)
Definition safe_segments (inherited : string → bool) (nodes : list string) : Prop :=
  Forall (λ node, is_param node = false → inherited node = false) nodes.

(** The property names of [Object.prototype] in ECMAScript. *)
Definition es_inherited (name : string) : bool :=
  bool_decide (name ∈ ["__proto__"; "constructor"; "hasOwnProperty";
                       "isPrototypeOf"; "propertyIsEnumerable"; "toLocaleString";
                       "toString"; "valueOf"; "__defineGetter__";
                       "__defineSetter__"; "__lookupGetter__"; "__lookupSetter__"]).

(** The location a pattern describes once every [:name] segment is replaced
    by the value chosen for [name]. *)
Definition fill_segment (values : string → string) (part : string) : string :=
  if is_param part then values (substr1 part) else part.

Definition build_location (values : string → string) (pattern : string) : string :=
  join "/" (fill_segment values <$> split "/" pattern).

(** ** Facts about the primitives *)

Lemma split_length sep s : 1 ≤ length (split sep s).
Proof.
  induction s as [|c s IH]; simpl; [lia|].
  destruct (decide (c = sep)); simpl; [lia|].
  destruct (split sep s); simpl in *; lia.
Qed.

Lemma split_head_empty s :
  split "/" s !! 0 = Some "" ↔ s = "" ∨ fst s = Some "/"%char.
Proof.
  destruct s as [|c s]; simpl.
  - split; [by left | done].
  - destruct (decide (c = "/"%char)) as [->|Hc]; simpl.
    + split; [by right | done].
    + pose proof (split_length "/" s).
      destruct (split "/" s); simpl in *; [lia|].
      split; [done|]. intros [?|?]; [done | congruence].
Qed.

Lemma is_param_true part :
  is_param part = true ↔ part = String ":" (substr1 part).
Proof.
  unfold is_param. rewrite bool_decide_eq_true.
  destruct part as [|c part]; simpl; [split; congruence|].
  split; [by intros [= ->] | by intros [= -> ]].
Qed.

Lemma array_set_lookup i v (arr : array) j s :
  length arr ≤ i →
  array_set i v arr !! j = Some (Some s) ↔
  arr !! j = Some (Some s) ∨ (j = i ∧ s = v).
Proof.
  intros Hlen. unfold array_set.
  destruct (decide (i < length arr)); [lia|].
  destruct (decide (j < length arr)) as [Hj|Hj].
  - rewrite lookup_app_l by done. split; [by left|]. intros [?|[-> _]]; [done|lia].
  - rewrite lookup_app_r by lia.
    rewrite (lookup_ge_None_2 arr j) by lia.
    destruct (decide (j - length arr < i - length arr)) as [Hlt|Hge].
    + rewrite lookup_app_l by (rewrite length_replicate; lia).
      rewrite lookup_replicate_2 by done.
      split; [done|]. intros [?|[-> _]]; [done|lia].
    + rewrite lookup_app_r by (rewrite length_replicate; lia).
      rewrite length_replicate.
      destruct (decide (j = i)) as [->|Hne].
      * replace (i - length arr - (i - length arr)) with 0 by lia. simpl.
        split; [intros [= ->]; by right | by intros [?|[_ ->]]].
      * destruct (j - length arr - (i - length arr)) as [|d] eqn:E; [lia|].
        simpl. split; [done|]. intros [?|[? _]]; done.
Qed.

Lemma array_set_length i v (arr : array) :
  length arr ≤ i → length (array_set i v arr) = S i.
Proof.
  intros Hlen. unfold array_set.
  destruct (decide (i < length arr)); [lia|].
  rewrite !length_app, length_replicate. simpl. lia.
Qed.

Lemma every_from_spec k cb (arr : array) :
  every_from k cb arr = true ↔
  ∀ j s, arr !! j = Some (Some s) → cb s (k + j) = true.
Proof.
  revert k. induction arr as [|[v|] arr IH]; intros k; simpl.
  - split; [intros _ j s; by rewrite lookup_nil | done].
  - rewrite andb_true_iff, IH. split.
    + intros [Hv Hall] [|j] s; simpl.
      * intros [= <-]. by rewrite Nat.add_0_r.
      * intros Hj. rewrite <-Nat.add_succ_comm. by apply Hall.
    + intros Hall. split.
      * specialize (Hall 0 v eq_refl). by rewrite Nat.add_0_r in Hall.
      * intros j s Hj. rewrite Nat.add_succ_comm. by apply Hall.
  - rewrite IH. split.
    + intros Hall [|j] s; simpl; [done|].
      intros Hj. rewrite <-Nat.add_succ_comm. by apply Hall.
    + intros Hall j s Hj. rewrite Nat.add_succ_comm. by apply Hall.
Qed.

Lemma literals_from_spec i patternParts locationParts :
  literals_from i patternParts locationParts = true ↔
  ∀ k s, patternParts !! k = Some s → is_param s = false →
         locationParts !! (i + k) = Some s.
Proof.
  revert i. induction patternParts as [|part ps IH]; intros i; simpl.
  - split; [intros _ k s; by rewrite lookup_nil | done].
  - rewrite andb_true_iff, orb_true_iff, bool_decide_eq_true, IH. split.
    + intros [Hhd Htl] [|k] s; simpl.
      * intros [= <-] Hlit. rewrite Nat.add_0_r.
        destruct Hhd as [?|?]; [congruence | done].
      * intros Hk Hlit. rewrite <-Nat.add_succ_comm. by apply Htl.
    + intros Hall. split.
      * destruct (is_param part) eqn:E; [by left | right].
        specialize (Hall 0 part eq_refl E). by rewrite Nat.add_0_r in Hall.
      * intros k s Hk Hlit. rewrite Nat.add_succ_comm. by apply Hall.
Qed.

(** ** What [parsePathPattern] computes *)

Section Parse.
Context {A : Type}.
Implicit Types (p : ParsedPathPattern A) (parts : list string).

Lemma parsePathPattern_loop_length i parts p :
  pp_length (parsePathPattern_loop i parts p) = pp_length p.
Proof.
  revert i p. induction parts as [|part parts IH]; intros i p; simpl; [done|].
  rewrite IH. by destruct (is_param part).
Qed.

Lemma parsePathPattern_loop_handler i parts p :
  pp_handler (parsePathPattern_loop i parts p) = pp_handler p.
Proof.
  revert i p. induction parts as [|part parts IH]; intros i p; simpl; [done|].
  rewrite IH. by destruct (is_param part).
Qed.

(** The parameter table is the one [readParams] builds. *)
Lemma parsePathPattern_loop_params i parts p :
  pp_params (parsePathPattern_loop i parts p) = readParams_loop i parts (pp_params p).
Proof.
  revert i p. induction parts as [|part parts IH]; intros i p; simpl; [done|].
  rewrite IH. by destruct (is_param part).
Qed.

(** [path] holds exactly the literal segments, each at its own index. *)
Lemma parsePathPattern_loop_path i parts p j s :
  length (pp_path p) ≤ i →
  pp_path (parsePathPattern_loop i parts p) !! j = Some (Some s) ↔
  pp_path p !! j = Some (Some s) ∨
  ∃ k, j = i + k ∧ parts !! k = Some s ∧ is_param s = false.
Proof.
  revert i p. induction parts as [|part parts IH]; intros i p Hlen; simpl.
  - split; [by left|]. intros [?|(k & _ & Hk & _)]; [done|].
    by rewrite lookup_nil in Hk.
  - destruct (is_param part) eqn:Epart.
    + rewrite IH by (simpl; lia). simpl. split.
      * intros [?|(k & -> & Hk & Hs)]; [by left|].
        right. exists (S k). split; [lia | done].
      * intros [?|([|k] & -> & Hk & Hs)]; [by left | |].
        -- simpl in Hk. congruence.
        -- right. exists k. split; [lia | done].
    + rewrite IH by (simpl; rewrite array_set_length; lia). simpl.
      rewrite array_set_lookup by done. split.
      * intros [[?|[-> ->]]|(k & -> & Hk & Hs)]; [by left | |].
        -- right. exists 0. split; [lia | done].
        -- right. exists (S k). split; [lia | done].
      * intros [?|([|k] & -> & Hk & Hs)]; [left; by left | |].
        -- simpl in Hk. injection Hk as <-. left. right. split; [lia | done].
        -- right. exists k. split; [lia | done].
Qed.

Lemma parsePathPattern_length pattern (h : PathHandler A) :
  pp_length (parsePathPattern pattern h) = length (split "/" pattern).
Proof.
  unfold parsePathPattern. case_decide; [done|].
  by rewrite parsePathPattern_loop_length.
Qed.

Lemma parsePathPattern_handler pattern (h : PathHandler A) :
  pp_handler (parsePathPattern pattern h) = h.
Proof.
  unfold parsePathPattern. case_decide; [done|].
  by rewrite parsePathPattern_loop_handler.
Qed.

Lemma parsePathPattern_params pattern (h : PathHandler A) :
  pp_params (parsePathPattern pattern h) =
  if decide (pattern = "*") then ∅
  else readParams_loop 0 (split "/" pattern) ∅.
Proof.
  unfold parsePathPattern. case_decide; [done|].
  by rewrite parsePathPattern_loop_params.
Qed.

(** The test of [find] is the specification's literal test. *)
Lemma compatible_literals_hold pattern (h : PathHandler A) locationParts :
  compatible locationParts (parsePathPattern pattern h) =
  literals_hold pattern locationParts.
Proof.
  apply eq_true_iff_eq.
  unfold compatible, every, literals_hold, parsePathPattern.
  rewrite orb_true_iff, bool_decide_eq_true.
  case_decide as Hstar; simpl.
  - split; [by left | done].
  - rewrite every_from_spec, literals_from_spec. split.
    + intros Hall. right. intros k s Hk Hs.
      specialize (Hall k s). rewrite bool_decide_eq_true in Hall.
      symmetry. apply Hall.
      apply parsePathPattern_loop_path; [simpl; lia|]. right. by exists k.
    + intros [?|Hall] j s Hj; [done|]. rewrite bool_decide_eq_true.
      apply parsePathPattern_loop_path in Hj as [Hj|(k & -> & Hk & Hs)];
        [simpl in Hj; by rewrite lookup_nil in Hj | | simpl; lia].
      symmetry. by apply Hall.
Qed.
End Parse.

(** ** The parameter table *)

Lemma set_lookup_proto {V} k (v : V) (obj : gmap string V) :
  Js.set k v obj !! "__proto__" = obj !! "__proto__".
Proof.
  unfold Js.set. case_decide; [done|]. by rewrite lookup_insert_ne.
Qed.

Lemma readParams_loop_proto i parts (m : gmap string nat) :
  readParams_loop i parts m !! "__proto__" = m !! "__proto__".
Proof.
  revert i m. induction parts as [|part parts IH]; intros i m; simpl; [done|].
  rewrite IH. destruct (is_param part); [apply set_lookup_proto | done].
Qed.

(** A name that no segment declares keeps whatever index it had. *)
Lemma readParams_loop_absent i parts (m : gmap string nat) name :
  (∀ j, parts !! j ≠ Some (String ":" name)) →
  readParams_loop i parts m !! name = m !! name.
Proof.
  revert i m. induction parts as [|part parts IH]; intros i m Habs; simpl; [done|].
  rewrite IH by (intros j; apply (Habs (S j))).
  destruct (is_param part) eqn:Epart; [|done].
  apply is_param_true in Epart.
  unfold Js.set. case_decide; [done|].
  apply lookup_insert_ne. intros <-. apply (Habs 0). simpl. congruence.
Qed.

(** A declared name is recorded with the index of its last declaration. *)
Lemma readParams_loop_last i parts (m : gmap string nat) name k :
  name ≠ "__proto__" →
  parts !! k = Some (String ":" name) →
  (∀ j, k < j → parts !! j ≠ Some (String ":" name)) →
  readParams_loop i parts m !! name = Some (i + k).
Proof.
  intros Hname. revert i m k.
  induction parts as [|part parts IH]; intros i m k Hk Hlast; [done|].
  destruct k as [|k]; simpl in *.
  - injection Hk as ->. simpl.
    rewrite readParams_loop_absent by (intros j; apply (Hlast (S j)); lia).
    unfold Js.set. rewrite decide_False by done.
    rewrite lookup_insert_eq. f_equal. lia.
  - rewrite (IH (S i) _ k Hk) by (intros j Hj; apply (Hlast (S j)); lia).
    f_equal. lia.
Qed.

(** Every recorded index comes from a declaration. *)
Lemma readParams_loop_lookup_inv i parts (m : gmap string nat) name n :
  readParams_loop i parts m !! name = Some n →
  m !! name = Some n ∨
  ∃ k, n = i + k ∧ parts !! k = Some (String ":" name) ∧ name ≠ "__proto__".
Proof.
  revert i m. induction parts as [|part parts IH]; intros i m; simpl; [by left|].
  intros Hn. apply IH in Hn as [Hn|(k & -> & Hk & Hname)].
  - destruct (is_param part) eqn:Epart; [|by left].
    apply is_param_true in Epart. unfold Js.set in Hn.
    case_decide as Hp; [by left|].
    destruct (decide (substr1 part = name)) as [<-|Hne].
    + rewrite lookup_insert_eq in Hn. injection Hn as <-.
      right. exists 0. split; [lia|]. split; [simpl; congruence | done].
    + rewrite lookup_insert_ne in Hn by done. by left.
  - right. exists (S k). split; [lia | done].
Qed.

(** The second loop of [readParams] and the last loop of [routePath] read
    the location at every recorded index. *)
Lemma read_entries (locationParts : list string) (m : gmap string nat) :
  m !! "__proto__" = None →
  foldl (λ params '(key, index), Js.set key (locationParts !! index) params)
        ∅ (entries m)
  = (λ index, locationParts !! index) <$> m.
Proof.
  intros Hproto. unfold entries.
  set (g := λ index : nat, locationParts !! index).
  assert (Hgen : ∀ (l : list (string * nat)) (acc : ParamsRecord),
    NoDup l.*1 → (∀ k v, (k, v) ∈ l → k ≠ "__proto__") →
    ∀ k, foldl (λ params '(key, index), Js.set key (g index) params) acc l !! k
         = match list_to_map (M := gmap string nat) l !! k with
           | Some index => Some (g index)
           | None => acc !! k
           end).
  { induction l as [|[k0 v0] l IH]; intros acc Hnd Hk k; simpl.
    - by rewrite lookup_empty.
    - inversion_clear Hnd as [|?? Hnotin Hnd'].
      rewrite IH; [|done|intros ?? ?; eapply Hk; by right].
      unfold Js.set. rewrite decide_False by (eapply Hk; by left).
      destruct (decide (k0 = k)) as [->|Hne].
      + rewrite lookup_insert_eq.
        rewrite (not_elem_of_list_to_map_1 l k) by done.
        by rewrite lookup_insert_eq.
      + rewrite !(lookup_insert_ne _ k0 k) by done.
        by destruct (list_to_map l !! k). }
  apply map_eq. intros k.
  rewrite Hgen.
  - rewrite list_to_map_to_list, lookup_fmap, lookup_empty.
    by destruct (m !! k).
  - apply NoDup_fst_map_to_list.
  - intros k' v Hin ->. apply elem_of_map_to_list in Hin. congruence.
Qed.

(** ** Which route [find] selects, and what the callback then computes *)

Section Routing.
Context {A : Type}.
Implicit Types (routes : Routes A) (router : Router) (l : Locals A).

Lemma find_first_compatible routes locationParts pattern handler :
  first_compatible routes locationParts pattern handler →
  List.find (compatible locationParts) (parseRoutes routes)
  = Some (parsePathPattern pattern handler).
Proof.
  intros (before & after & -> & Hbefore & Hhere).
  induction Hbefore as [|[pat h] before Hhd _ IH]; simpl.
  - by rewrite compatible_literals_hold, Hhere.
  - simpl in Hhd. by rewrite compatible_literals_hold, Hhd.
Qed.

Lemma find_compatible_inv routes locationParts m :
  List.find (compatible locationParts) (parseRoutes routes) = Some m →
  ∃ pattern handler,
    first_compatible routes locationParts pattern handler ∧
    m = parsePathPattern pattern handler.
Proof.
  induction routes as [|[pat h] routes IH]; simpl; [done|].
  rewrite compatible_literals_hold.
  destruct (literals_hold pat locationParts) eqn:Epat.
  - intros [= <-]. exists pat, h. split; [|done].
    by exists [], routes.
  - intros Hfind. destruct (IH Hfind) as (pattern & handler & Hfirst & ->).
    exists pattern, handler. split; [|done].
    destruct Hfirst as (before & after & -> & Hbefore & Hhere).
    exists ((pat, h) :: before), after. split; [done|]. split; [|done].
    by constructor.
Qed.

Lemma find_compatible_None routes locationParts :
  List.find (compatible locationParts) (parseRoutes routes) = None ↔
  Forall (λ r, literals_hold r.1 locationParts = false) routes.
Proof.
  induction routes as [|[pat h] routes IH]; simpl.
  - split; [constructor | done].
  - rewrite compatible_literals_hold, Forall_cons. simpl.
    destruct (literals_hold pat locationParts); [split; [done | by intros [? _]]|].
    rewrite IH. split; [done | by intros [_ ?]].
Qed.

Lemma parsePathPattern_params_proto pattern (h : PathHandler A) :
  pp_params (parsePathPattern pattern h) !! "__proto__" = None.
Proof.
  rewrite parsePathPattern_params. case_decide; [done|].
  by rewrite readParams_loop_proto.
Qed.

(** The constants of the callback when [pattern] is the route selected. *)
Lemma route_first_compatible routes router location pattern handler :
  first_compatible routes (split "/" location) pattern handler →
  route (parseRoutes routes) router location =
  let locationParts := split "/" location in
  let n := length (split "/" pattern) in
  let matchedPath := join "/" (take n locationParts) in
  let rest := "/" +:+ join "/" (drop n locationParts) in
  Return {| match_ := parsePathPattern pattern handler;
            rest := rest;
            matchedPath := matchedPath;
            newRouter := {| prefixPath := prefixPath router +:+ matchedPath;
                            path := Behavior.of_ rest;
                            config := config router |};
            params := (λ index, locationParts !! index)
                        <$> pp_params (parsePathPattern pattern handler) |}.
Proof.
  intros Hfirst. unfold route.
  rewrite (find_first_compatible _ _ _ _ Hfirst).
  rewrite read_entries by apply parsePathPattern_params_proto.
  by rewrite parsePathPattern_length.
Qed.

Lemma route_Return_inv routes router location l :
  route (parseRoutes routes) router location = Return l →
  ∃ pattern handler, first_compatible routes (split "/" location) pattern handler.
Proof.
  unfold route.
  destruct (List.find _ _) as [m|] eqn:Efind; [|done]. intros _.
  apply find_compatible_inv in Efind as (pattern & handler & Hfirst & _).
  by exists pattern, handler.
Qed.

Lemma route_Throw routes router location :
  Forall (λ r, literals_hold r.1 (split "/" location) = false) routes →
  route (parseRoutes routes) router location = Throw TypeError.
Proof.
  intros Hnone. apply find_compatible_None in Hnone.
  unfold route. by rewrite Hnone.
Qed.
End Routing.

(** ** Parameters bound by a match *)

Lemma last_declared_lookup (parts : list string) part i :
  part ∉ drop (S i) parts → ∀ j, i < j → parts !! j ≠ Some part.
Proof.
  intros Hnotin j Hj Hlook. apply Hnotin.
  apply (list_elem_of_lookup_2 _ (j - S i)).
  rewrite lookup_drop. by replace (S i + (j - S i)) with j by lia.
Qed.

Lemma declared_param_not_star pattern i name :
  split "/" pattern !! i = Some (String ":" name) → pattern ≠ "*".
Proof. intros Hi ->. by destruct i. Qed.

(** C1.  When the first compatible pattern declares [:name], the
    last time at index [i], and [name] is not [__proto__], the match succeeds
    and binds [params[name]] to [locationParts[i]], the [i]-th segment of the
    location split on "/" ([undefined] when the location is that short).
    In particular "/users/:id" against "/users/42" gives params = {id: "42"}. *)
Theorem route_binds_last_declared_param {A} :
  (∀ (routes : Routes A) router location pattern handler i name,
     first_compatible routes (split "/" location) pattern handler →
     split "/" pattern !! i = Some (String ":" name) →
     name ≠ "__proto__" →
     String ":" name ∉ drop (S i) (split "/" pattern) →
     ∃ l, route (parseRoutes routes) router location = Return l ∧
          match_ l = parsePathPattern pattern handler ∧
          params l !! name = Some (split "/" location !! i)) ∧
  (∀ (handler : Handler A) router,
     ∃ l, route (parseRoutes [("/users/:id", handler)]) router "/users/42" = Return l ∧
          pp_handler (match_ l) = handler ∧
          params l = {[ "id" := Some "42" ]} ∧
          rest l = "/").
Proof.
  split.
  - intros routes router location pattern handler i name Hfirst Hi Hname Hlast.
    eexists. split; [by apply route_first_compatible|]. simpl. split; [done|].
    rewrite lookup_fmap, parsePathPattern_params.
    rewrite decide_False by eauto using declared_param_not_star.
    rewrite (readParams_loop_last 0 _ _ name i) by eauto using last_declared_lookup.
    done.
  - intros handler router. eexists. split; [reflexivity|].
    split; [apply parsePathPattern_handler|]. split; by vm_compute.
Qed.

Lemma route_binds_last_declared_param_witness :
  ∃ l, route (parseRoutes [("/a", observe); ("/users/:id/:id", observe)])
             (root "/users/42/43") "/users/42/43" = Return l ∧
       match_ l = parsePathPattern "/users/:id/:id" observe ∧
       params l !! "id" = Some (split "/" "/users/42/43" !! 3).
Proof.
  apply (proj1 route_binds_last_declared_param _ _ _ "/users/:id/:id" observe 3 "id").
  - exists [("/a", observe)], []. split; [reflexivity|].
    split; [by repeat constructor | by vm_compute].
  - reflexivity.
  - discriminate.
  - vm_compute. apply not_elem_of_nil.
Defined.

(** C1, as stated, fails when a pattern repeats a name: "/:a/:a" has [:a] at
    index 1, and against "/x/y" the match binds [a] to segment 2, not 1. *)
Lemma repeated_param_counterexample :
  ∃ l, route (parseRoutes [("/:a/:a", observe)]) (root "/x/y") "/x/y" = Return l ∧
       split "/" "/:a/:a" !! 1 = Some ":a" ∧
       split "/" "/x/y" !! 1 = Some "x" ∧
       params l !! "a" = Some (Some "y") ∧
       params l !! "a" ≠ Some (split "/" "/x/y" !! 1).
Proof.
  eexists. split; [reflexivity|].
  repeat split; by vm_compute.
Qed.

(** ** Patterns made of literal segments only *)

Lemma prefix_of_lookup {X} (l1 l2 : list X) :
  l1 `prefix_of` l2 ↔ ∀ k x, l1 !! k = Some x → l2 !! k = Some x.
Proof.
  split; [intros Hpre k x Hk; by eapply prefix_lookup_Some|].
  revert l2. induction l1 as [|a l1 IH]; intros l2 Hall; [apply prefix_nil|].
  destruct l2 as [|b l2]; [by specialize (Hall 0 a eq_refl)|].
  pose proof (Hall 0 a eq_refl) as [= ->].
  apply prefix_cons, IH. intros k x Hk. by apply (Hall (S k)).
Qed.

Lemma only_literals_hold pattern locationParts :
  only_literals pattern →
  literals_hold pattern locationParts = true ↔
  split "/" pattern `prefix_of` locationParts.
Proof.
  intros [Hstar Hlit]. unfold literals_hold.
  rewrite bool_decide_eq_false_2 by done. simpl.
  rewrite literals_from_spec, prefix_of_lookup.
  rewrite Forall_lookup in Hlit.
  split; intros Hall k s Hk; [by eapply Hall, Hlit | intros _; by apply Hall].
Qed.

Lemma only_literals_params {A} pattern (h : PathHandler A) :
  only_literals pattern → pp_params (parsePathPattern pattern h) = ∅.
Proof.
  intros [Hstar Hlit]. rewrite parsePathPattern_params, decide_False by done.
  apply map_empty. intros name.
  destruct (readParams_loop 0 _ ∅ !! name) as [n|] eqn:E; [|done].
  apply readParams_loop_lookup_inv in E as [E|(k & _ & Hk & _)]; [done|].
  rewrite Forall_lookup in Hlit. by specialize (Hlit k _ Hk).
Qed.

(** C2.  A pattern of literal segments only (none starts with ":",
    and the pattern is not "*") matches a location if and only if the
    pattern's segments are the first segments of the location, position for
    position; the location may go on after them.  The params record of such
    a match is empty. *)
Theorem literal_pattern_matches_prefix {A} pattern (handler : Handler A)
    router location :
  only_literals pattern →
  (compatible (split "/" location) (parsePathPattern pattern handler) = true ↔
   split "/" pattern `prefix_of` split "/" location) ∧
  ((∃ l, route (parseRoutes [(pattern, handler)]) router location = Return l) ↔
   split "/" pattern `prefix_of` split "/" location) ∧
  (route (parseRoutes [(pattern, handler)]) router location = Throw TypeError ↔
   ¬ split "/" pattern `prefix_of` split "/" location) ∧
  (∀ l, route (parseRoutes [(pattern, handler)]) router location = Return l →
        params l = ∅).
Proof.
  intros Hlit.
  pose proof (only_literals_hold pattern (split "/" location) Hlit) as Hiff.
  split; [by rewrite compatible_literals_hold|].
  destruct (literals_hold pattern (split "/" location)) eqn:Ehold.
  - assert (Hfirst : first_compatible [(pattern, handler)] (split "/" location)
                       pattern handler) by (by exists [], []).
    rewrite (route_first_compatible _ router _ _ _ Hfirst). simpl.
    split; [|split].
    + split; [intros _; by apply Hiff | by eauto].
    + split; [done|]. intros Hn. destruct Hn. by apply Hiff.
    + intros l [= <-]. simpl. by rewrite only_literals_params, fmap_empty.
  - rewrite route_Throw by (by repeat constructor).
    assert (¬ split "/" pattern `prefix_of` split "/" location) as Hn
      by (intros Hpre; apply Hiff in Hpre; congruence).
    split; [|split]; [|done|done].
    split; [by intros [l ?] | done].
Qed.

Lemma literal_pattern_matches_prefix_witness :
  (compatible (split "/" "/a/b/c") (parsePathPattern "/a/b" observe) = true ↔
   split "/" "/a/b" `prefix_of` split "/" "/a/b/c") ∧
  ((∃ l, route (parseRoutes [("/a/b", observe)]) (root "/a/b/c") "/a/b/c" = Return l) ↔
   split "/" "/a/b" `prefix_of` split "/" "/a/b/c") ∧
  (route (parseRoutes [("/a/b", observe)]) (root "/a/b/c") "/a/b/c" = Throw TypeError ↔
   ¬ split "/" "/a/b" `prefix_of` split "/" "/a/b/c") ∧
  (∀ l, route (parseRoutes [("/a/b", observe)]) (root "/a/b/c") "/a/b/c" = Return l →
        params l = ∅).
Proof.
  apply (literal_pattern_matches_prefix "/a/b" observe (root "/a/b/c") "/a/b/c").
  split; [discriminate|]. vm_compute. by repeat constructor.
Defined.

(** C2, as stated, fails: "/a" matches "/a/b", whose segments are one more
    than the pattern's. *)
Lemma literal_pattern_counterexample :
  only_literals "/a" ∧
  (∃ l, route (parseRoutes [("/a", observe)]) (root "/a/b") "/a/b" = Return l) ∧
  split "/" "/a/b" ≠ split "/" "/a".
Proof.
  split; [|split].
  - split; [discriminate|]. vm_compute. by repeat constructor.
  - eexists. reflexivity.
  - by vm_compute.
Qed.

(** ** The consumed prefix and the remainder *)

(** C3.  On every successful match, the matched pattern's length
    [n] is the number of segments its pattern string splits into; the match
    consumes the first [n] segments of the location, or all of them when the
    location has fewer (so [n] exactly whenever the location has at least
    [n]); the remainder is "/" followed by the join of the unconsumed
    segments, hence begins with "/" even when none remain.  In particular
    "/users/:id" against "/users/42/posts" yields rest = "/posts". *)
Theorem route_consumes_pattern_length {A} :
  (∀ (routes : Routes A) router location l,
     route (parseRoutes routes) router location = Return l →
     ∃ pattern handler consumed unconsumed,
       first_compatible routes (split "/" location) pattern handler ∧
       match_ l = parsePathPattern pattern handler ∧
       pp_length (match_ l) = length (split "/" pattern) ∧
       split "/" location = consumed ++ unconsumed ∧
       length consumed = pp_length (match_ l) `min` length (split "/" location) ∧
       matchedPath l = join "/" consumed ∧
       rest l = "/" +:+ join "/" unconsumed ∧
       fst (rest l) = Some "/"%char ∧
       path (newRouter l) = Behavior.of_ (rest l)) ∧
  (∀ (handler : Handler A) router,
     ∃ l, route (parseRoutes [("/users/:id", handler)]) router "/users/42/posts"
          = Return l ∧
          params l = {[ "id" := Some "42" ]} ∧
          matchedPath l = "/users/42" ∧
          rest l = "/posts").
Proof.
  split.
  - intros routes router location l Hroute.
    destruct (route_Return_inv _ _ _ _ Hroute) as (pattern & handler & Hfirst).
    rewrite (route_first_compatible _ router _ _ _ Hfirst) in Hroute.
    injection Hroute as <-. simpl.
    set (n := length (split "/" pattern)).
    exists pattern, handler, (take n (split "/" location)), (drop n (split "/" location)).
    rewrite parsePathPattern_length, take_drop, length_take.
    done.
  - intros handler router. eexists. split; [reflexivity|].
    repeat split; by vm_compute.
Qed.

Lemma route_consumes_pattern_length_witness :
  ∃ pattern handler consumed unconsumed,
    first_compatible [("/a/:b", observe)] (split "/" "/a") pattern handler ∧
    parsePathPattern "/a/:b" observe = parsePathPattern pattern handler ∧
    pp_length (parsePathPattern "/a/:b" observe) = length (split "/" pattern) ∧
    split "/" "/a" = consumed ++ unconsumed ∧
    length consumed = pp_length (parsePathPattern "/a/:b" observe) `min` length (split "/" "/a") ∧
    "/a" = join "/" consumed ∧
    "/" = "/" +:+ join "/" unconsumed ∧
    fst "/" = Some "/"%char ∧
    Behavior.of_ "/" = Behavior.of_ "/".
Proof.
  apply (proj1 route_consumes_pattern_length [("/a/:b", observe)] (root "/a") "/a"
           {| match_ := parsePathPattern "/a/:b" observe;
              rest := "/"; matchedPath := "/a";
              newRouter := {| prefixPath := "/a"; path := Behavior.of_ "/";
                              config := {| useHash := false |} |};
              params := {[ "b" := None ]} |}).
  by vm_compute.
Defined.

(** C3, as stated, fails when the location is shorter than the pattern:
    "/a/:b" has length 3 and matches "/a", of which only 2 segments exist to
    be consumed. *)
Lemma short_location_counterexample :
  ∃ l, route (parseRoutes [("/a/:b", observe)]) (root "/a") "/a" = Return l ∧
       pp_length (match_ l) = length (split "/" "/a/:b") ∧
       pp_length (match_ l) = 3 ∧
       matchedPath l = join "/" (slice_to (pp_length (match_ l)) (split "/" "/a")) ∧
       length (slice_to (pp_length (match_ l)) (split "/" "/a")) = 2.
Proof.
  eexists. split; [reflexivity|]. repeat split; by vm_compute.
Qed.

(** ** No compatible route *)

(** C4.  What the code does where the claim expects a NoMatchError.  When
    no pattern of the table passes the literal test against the location,
    [find] returns [undefined], which the callback does not test for: it
    reads [match.length] and so throws a [TypeError], not an error of the
    router's own.  The throw is the outcome of [routePath] at that instant
    and no handler is called.  In particular {"/a": H1, "/b": H2} against
    "/c" ends in that [TypeError]. *)
Theorem no_compatible_route_throws {A} :
  (∀ (routes : Routes A) router location,
     Forall (λ r, literals_hold r.1 (split "/" location) = false) routes →
     route (parseRoutes routes) router location = Throw TypeError ∧
     (∀ l, route (parseRoutes routes) router location ≠ Return l) ∧
     (∀ t, path router t = location →
           routePath routes router t = Throw TypeError ∧
           ∀ a, routePath routes router t ≠ Return a)) ∧
  (∀ (H1 H2 : Handler A) router,
     route (parseRoutes [("/a", H1); ("/b", H2)]) router "/c" = Throw TypeError ∧
     ∀ t, path router t = "/c" →
          routePath [("/a", H1); ("/b", H2)] router t = Throw TypeError).
Proof.
  assert (Hgen : ∀ (routes : Routes A) router location,
     Forall (λ r, literals_hold r.1 (split "/" location) = false) routes →
     route (parseRoutes routes) router location = Throw TypeError ∧
     (∀ l, route (parseRoutes routes) router location ≠ Return l) ∧
     (∀ t, path router t = location →
           routePath routes router t = Throw TypeError ∧
           ∀ a, routePath routes router t ≠ Return a)).
  { intros routes router location Hnone.
    pose proof (route_Throw _ router _ Hnone) as Hthrow.
    split; [done|]. split; [by rewrite Hthrow|].
    intros t Ht. unfold routePath, Behavior.map. by rewrite Ht, Hthrow. }
  split; [done|].
  intros H1 H2 router.
  destruct (Hgen [("/a", H1); ("/b", H2)] router "/c") as (Hroute & _ & Hpath);
    [by repeat constructor|].
  split; [done|]. intros t Ht. by apply Hpath.
Qed.

Lemma no_compatible_route_throws_witness :
  route (parseRoutes [("/a/:x", observe); ("/b", observe)]) (root "/c/1") "/c/1"
  = Throw TypeError ∧
  (∀ l, route (parseRoutes [("/a/:x", observe); ("/b", observe)]) (root "/c/1") "/c/1"
        ≠ Return l) ∧
  (∀ t, path (root "/c/1") t = "/c/1" →
        routePath [("/a/:x", observe); ("/b", observe)] (root "/c/1") t = Throw TypeError ∧
        ∀ a, routePath [("/a/:x", observe); ("/b", observe)] (root "/c/1") t ≠ Return a).
Proof.
  apply (proj1 no_compatible_route_throws
           [("/a/:x", observe); ("/b", observe)] (root "/c/1") "/c/1").
  by repeat constructor.
Defined.

(** ** The catch-all pattern *)

Lemma first_segment location :
  ∃ first, split "/" location !! 0 = Some first ∧
           take 1 (split "/" location) = [first].
Proof.
  pose proof (split_length "/" location).
  destruct (split "/" location) as [|first parts]; simpl in *; [lia|].
  by exists first.
Qed.

(** C5.  "*" compiles to no literal constraint, an empty params table and
    length 1.  When it is the first compatible pattern it matches whatever
    the location is, consumes exactly one segment of it (the first) and
    binds no parameter.  In particular "*" against "/anything/at/all"
    succeeds with params = {}. *)
Theorem star_matches_any_location {A} :
  (∀ handler : Handler A,
     parsePathPattern "*" handler =
     {| pp_path := []; pp_params := ∅; pp_length := 1; pp_handler := handler |}) ∧
  (∀ (handler : Handler A) locationParts,
     compatible locationParts (parsePathPattern "*" handler) = true) ∧
  (∀ (before after : Routes A) handler router location,
     Forall (λ r, literals_hold r.1 (split "/" location) = false) before →
     ∃ first,
       slice_to 1 (split "/" location) = [first] ∧
       route (parseRoutes (before ++ ("*", handler) :: after)) router location =
       Return {| match_ := parsePathPattern "*" handler;
                 rest := "/" +:+ join "/" (slice_from 1 (split "/" location));
                 matchedPath := first;
                 newRouter :=
                   {| prefixPath := prefixPath router +:+ first;
                      path := Behavior.of_
                                ("/" +:+ join "/" (slice_from 1 (split "/" location)));
                      config := config router |};
                 params := ∅ |}) ∧
  (∀ (handler : Handler A) router,
     ∃ l, route (parseRoutes [("*", handler)]) router "/anything/at/all" = Return l ∧
          pp_handler (match_ l) = handler ∧
          params l = ∅ ∧
          slice_to (pp_length (match_ l)) (split "/" "/anything/at/all") = [""] ∧
          rest l = "/anything/at/all").
Proof.
  split; [done|]. split; [done|]. split.
  - intros before after handler router location Hbefore.
    destruct (first_segment location) as (first & _ & Htake).
    exists first. split; [done|].
    rewrite (route_first_compatible _ router location "*" handler)
      by (by exists before, after).
    simpl. unfold slice_from. rewrite Htake. simpl. by rewrite fmap_empty.
  - intros handler router. eexists. split; [reflexivity|].
    repeat split; by vm_compute.
Qed.

Lemma star_matches_any_location_witness :
  ∃ first,
    slice_to 1 (split "/" "/known/path") = [first] ∧
    route (parseRoutes ([("/other", observe)] ++ ("*", observe) :: [("/known/path", observe)]))
          (root "/known/path") "/known/path" =
    Return {| match_ := parsePathPattern "*" observe;
              rest := "/" +:+ join "/" (slice_from 1 (split "/" "/known/path"));
              matchedPath := first;
              newRouter :=
                {| prefixPath := prefixPath (root "/known/path") +:+ first;
                   path := Behavior.of_
                             ("/" +:+ join "/" (slice_from 1 (split "/" "/known/path")));
                   config := config (root "/known/path") |};
              params := ∅ |}.
Proof.
  apply (proj1 (proj2 (proj2 star_matches_any_location))
           [("/other", observe)] [("/known/path", observe)] observe
           (root "/known/path") "/known/path").
  by repeat constructor.
Defined.

(** C9.  A table that has the key "*" always yields a match: [find] returns
    a pattern for every location, so the callback never reaches the failure
    of reading [match.length] on [undefined]. *)
Theorem star_route_always_matches {A} (routes : Routes A) router location :
  "*" ∈ routes.*1 →
  is_Some (List.find (compatible (split "/" location)) (parseRoutes routes)) ∧
  (∃ l, route (parseRoutes routes) router location = Return l) ∧
  (∀ e, route (parseRoutes routes) router location ≠ Throw e) ∧
  (∀ t, ∃ a, routePath routes router t = Return a).
Proof.
  intros Hstar.
  assert (Hfind : ∀ locationParts,
    is_Some (List.find (compatible locationParts) (parseRoutes routes))).
  { intros locationParts.
    destruct (List.find _ _) eqn:Efind; [done|].
    apply find_compatible_None in Efind.
    apply list_elem_of_fmap in Hstar as ([pat h] & Hpat & Hin). simpl in Hpat. subst pat.
    rewrite Forall_forall in Efind. by specialize (Efind _ Hin). }
  assert (Hroute : ∀ r loc, ∃ l, route (parseRoutes routes) r loc = Return l).
  { intros r loc. unfold route. destruct (Hfind (split "/" loc)) as [m ->]. eauto. }
  split; [done|]. split; [done|]. split.
  - intros e. destruct (Hroute router location) as [l ->]. done.
  - intros t. unfold routePath, Behavior.map.
    destruct (Hroute router (path router t)) as [l ->]. simpl. eauto.
Qed.

Lemma star_route_always_matches_witness :
  is_Some (List.find (compatible (split "/" "/nowhere"))
                     (parseRoutes [("/known", observe); ("*", observe)])) ∧
  (∃ l, route (parseRoutes [("/known", observe); ("*", observe)])
              (root "/nowhere") "/nowhere" = Return l) ∧
  (∀ e, route (parseRoutes [("/known", observe); ("*", observe)])
              (root "/nowhere") "/nowhere" ≠ Throw e) ∧
  (∀ t, ∃ a, routePath [("/known", observe); ("*", observe)] (root "/nowhere") t
             = Return a).
Proof.
  apply (star_route_always_matches [("/known", observe); ("*", observe)]
           (root "/nowhere") "/nowhere").
  vm_compute. apply list_elem_of_further, list_elem_of_here.
Defined.

(** ** Sub-routers and the accumulated prefix *)

Lemma string_app_cons c (s1 s2 : string) :
  String c s1 +:+ s2 = String c (s1 +:+ s2).
Proof. reflexivity. Qed.

Lemma string_length_app (s1 s2 : string) :
  String.length (s1 +:+ s2) = String.length s1 + String.length s2.
Proof.
  induction s1 as [|c s1 IH]; [done|].
  rewrite string_app_cons. simpl. by rewrite IH.
Qed.

Lemma string_app_assoc (s1 s2 s3 : string) :
  (s1 +:+ s2) +:+ s3 = s1 +:+ s2 +:+ s3.
Proof.
  induction s1 as [|c s1 IH]; [done|].
  by rewrite !string_app_cons, IH.
Qed.

Lemma string_app_empty_r (s : string) : s +:+ "" = s.
Proof.
  induction s as [|c s IH]; [done|].
  by rewrite string_app_cons, IH.
Qed.

Lemma route_newRouter {A} (parsedRoutes : list (ParsedPathPattern A))
    router location l :
  route parsedRoutes router location = Return l →
  newRouter l = {| prefixPath := prefixPath router +:+ matchedPath l;
                   path := Behavior.of_ (rest l);
                   config := config router |}.
Proof.
  unfold route. destruct (List.find _ _); [|done]. by intros [= <-].
Qed.

(** C6.  Every successful match builds the sub-router with [prefixPath]
    equal to the parent's [prefixPath] followed by the matched path.  Hence
    after a chain of N nested successful matches the innermost [prefixPath]
    is the outermost one followed by the N matched paths in descent order
    (from a root router, whose prefix is empty: their concatenation), and it
    never gets shorter.  In particular "/app" and then "/dashboard" over
    "/app/dashboard" end with prefixPath "/app/dashboard", the inner router
    having been given rest "/dashboard". *)
Theorem prefixPath_accumulates_matched_paths {A} :
  (∀ (routes : Routes A) router location l,
     route (parseRoutes routes) router location = Return l →
     prefixPath (newRouter l) = prefixPath router +:+ matchedPath l) ∧
  (∀ (levels : list (Routes A)) router t inner matched,
     descend levels router t = Return (inner, matched) →
     length matched = length levels ∧
     prefixPath inner = prefixPath router +:+ String.concat "" matched ∧
     (prefixPath router = "" → prefixPath inner = String.concat "" matched) ∧
     String.length (prefixPath router) ≤ String.length (prefixPath inner)) ∧
  (∀ (H1 H2 : Handler A),
     ∃ l1 l2,
       route (parseRoutes [("/app", H1)]) (root "/app/dashboard") "/app/dashboard"
       = Return l1 ∧
       rest l1 = "/dashboard" ∧
       route (parseRoutes [("/dashboard", H2)]) (newRouter l1) (path (newRouter l1) 0)
       = Return l2 ∧
       prefixPath (newRouter l2) = "/app/dashboard" ∧
       ∃ inner,
         descend [[("/app", H1)]; [("/dashboard", H2)]] (root "/app/dashboard") 0
         = Return (inner, ["/app"; "/dashboard"]) ∧
         prefixPath inner = "/app/dashboard").
Proof.
  split; [|split].
  - intros routes router location l Hroute.
    by rewrite (route_newRouter _ _ _ _ Hroute).
  - induction levels as [|routes levels IH]; intros router t inner matched; simpl.
    + intros [= <- <-]. simpl. by rewrite string_app_empty_r.
    + destruct (route _ _ _) as [e|l] eqn:Eroute; [done|].
      destruct (descend levels (newRouter l) t) as [e|[inner' matched']] eqn:Edesc;
        [done|].
      intros [= <- <-].
      destruct (IH _ _ _ _ Edesc) as (Hlen & Hprefix & _ & Hmono).
      rewrite (route_newRouter _ _ _ _ Eroute) in Hprefix, Hmono.
      cbn [prefixPath] in Hprefix, Hmono.
      rewrite string_length_app in Hmono.
      assert (prefixPath inner' =
              prefixPath router +:+ String.concat "" (matchedPath l :: matched'))
        as Hacc.
      { rewrite Hprefix, string_app_assoc. f_equal.
        destruct matched' as [|m matched'']; simpl;
          [by rewrite string_app_empty_r | done]. }
      split; [simpl; by rewrite Hlen|]. split; [done|]. split; [|lia].
      intros Hroot. by rewrite Hacc, Hroot.
  - intros H1 H2. do 2 eexists.
    split; [reflexivity|]. split; [by vm_compute|].
    split; [reflexivity|]. split; [by vm_compute|].
    eexists. split; [by vm_compute | by vm_compute].
Qed.

Lemma prefixPath_accumulates_matched_paths_witness :
  length ["/shop"; "/items/7"; ""] =
  length [[("/shop", observe)]; [("/items/:id", observe)]; [("*", observe)]] ∧
  prefixPath {| prefixPath := "/shop/items/7"; path := Behavior.of_ "/edit";
                config := {| useHash := false |} |}
  = prefixPath (root "/shop/items/7/edit") +:+ String.concat "" ["/shop"; "/items/7"; ""] ∧
  (prefixPath (root "/shop/items/7/edit") = "" →
   prefixPath {| prefixPath := "/shop/items/7"; path := Behavior.of_ "/edit";
                 config := {| useHash := false |} |}
   = String.concat "" ["/shop"; "/items/7"; ""]) ∧
  String.length (prefixPath (root "/shop/items/7/edit")) ≤
  String.length (prefixPath {| prefixPath := "/shop/items/7"; path := Behavior.of_ "/edit";
                               config := {| useHash := false |} |}).
Proof.
  apply (proj1 (proj2 prefixPath_accumulates_matched_paths)
           [[("/shop", observe)]; [("/items/:id", observe)]; [("*", observe)]]
           (root "/shop/items/7/edit") 0).
  by vm_compute.
Defined.

(** ** The empty pattern *)

(** C7.  Compilation never fails, whatever the pattern string; the
    compiled pattern has the handler and a length of at least 1.  The empty
    string compiles to a single empty literal segment, and that pattern
    matches every location whose first segment is empty: the empty location
    and every location that begins with "/", not the root alone. *)
Theorem empty_pattern_matches_rooted_locations {A} (handler : Handler A) :
  (∀ pattern, ∃ path params length,
     parsePathPattern pattern handler =
     {| pp_path := path; pp_params := params; pp_length := length;
        pp_handler := handler |} ∧ 1 ≤ length) ∧
  parsePathPattern "" handler =
    {| pp_path := [Some ""]; pp_params := ∅; pp_length := 1; pp_handler := handler |} ∧
  (∀ location,
     compatible (split "/" location) (parsePathPattern "" handler) = true ↔
     location = "" ∨ fst location = Some "/"%char) ∧
  (∀ router location,
     (∃ l, route (parseRoutes [("", handler)]) router location = Return l) ↔
     location = "" ∨ fst location = Some "/"%char).
Proof.
  assert (Hcompat : ∀ location,
     compatible (split "/" location) (parsePathPattern "" handler) = true ↔
     location = "" ∨ fst location = Some "/"%char).
  { intros location. rewrite <-split_head_empty.
    unfold compatible, every. simpl.
    rewrite andb_true_r, bool_decide_eq_true. split; congruence. }
  split; [|split; [done|split; [done|]]].
  - intros pattern.
    exists (pp_path (parsePathPattern pattern handler)),
           (pp_params (parsePathPattern pattern handler)),
           (pp_length (parsePathPattern pattern handler)).
    split.
    + pose proof (parsePathPattern_handler pattern handler) as Hh.
      destruct (parsePathPattern pattern handler). simpl in Hh. by subst.
    + rewrite parsePathPattern_length. apply split_length.
  - intros router location. rewrite <-Hcompat.
    unfold route. simpl.
    destruct (compatible _ _); split; eauto; [by intros [l ?] | done].
Qed.

(** C7, as stated, fails: the empty pattern also matches "/users/42", which
    is not the root. *)
Lemma empty_pattern_counterexample :
  compatible (split "/" "/users/42") (parsePathPattern "" observe) = true ∧
  (∃ l, route (parseRoutes [("", observe)]) (root "/users/42") "/users/42" = Return l) ∧
  "/users/42" ≠ "/" ∧ "/users/42" ≠ "".
Proof.
  split; [by vm_compute|]. split; [eexists; reflexivity|]. done.
Qed.

(** ** Router construction *)

(** C8.  [createRouter] throws exactly when hash routing is asked
    for and unsupported, or the history API is unsupported, whatever the
    mode asked for.  A host that supports hash changes but not the history
    API is therefore refused hash routing, the mode it does support. *)
Theorem createRouter_hash_mode_requires_history
    (locationHashB locationB : Behavior string) :
  createRouter false true locationHashB locationB {| useHash := true |}
  = Throw (Error "No support for history API.") ∧
  (∀ supportHistory supportHash config,
     (∃ e, createRouter supportHistory supportHash locationHashB locationB config
           = Throw e) ↔
     (useHash config = true ∧ supportHash = false) ∨ supportHistory = false) ∧
  (∀ supportHistory supportHash config r,
     createRouter supportHistory supportHash locationHashB locationB config = Return r →
     prefixPath r = "" ∧
     path r = (if useHash config then locationHashB else locationB)).
Proof.
  split; [done|]. split.
  - intros [] [] [[]]; unfold createRouter; simpl;
      (split; [intros [e He]; try done; auto | intros [[? ?]|?]; try done; eauto]).
  - intros [] [] [[]] r; unfold createRouter; simpl; try done; by intros [= <-].
Qed.

(** ** Reading parameters without matching *)

Lemma readParams_lookup pattern location name :
  readParams pattern location !! name =
  (λ index, split "/" location !! index)
    <$> (readParams_loop 0 (split "/" pattern) ∅ !! name).
Proof.
  unfold readParams.
  rewrite read_entries by (by rewrite readParams_loop_proto).
  apply lookup_fmap.
Qed.

(** C10.  [parsePathParams] applies [readParams] to the location
    at every instant.  For every pattern and location, [readParams] binds a
    name declared by a [:name] segment, the last time at index [i] (and other
    than [__proto__]), to the [i]-th segment of the location split on "/".
    It tests no literal segment, so the binding is made whether or not the
    location agrees with the pattern's literals, and it is [undefined] when
    the location has fewer than [i + 1] segments.  A name that no segment
    declares is not bound. *)
Theorem readParams_binds_last_declared pattern location name i :
  split "/" pattern !! i = Some (String ":" name) →
  name ≠ "__proto__" →
  String ":" name ∉ drop (S i) (split "/" pattern) →
  (∀ (b : Behavior string) t,
     b t = location → parsePathParams pattern b t = readParams pattern location) ∧
  readParams pattern location !! name = Some (split "/" location !! i) ∧
  (length (split "/" location) ≤ i →
   readParams pattern location !! name = Some None) ∧
  (∀ other, String ":" other ∉ split "/" pattern →
            readParams pattern location !! other = None).
Proof.
  intros Hi Hname Hlast.
  assert (Hbind : readParams pattern location !! name = Some (split "/" location !! i)).
  { rewrite readParams_lookup.
    by rewrite (readParams_loop_last 0 _ _ name i) by eauto using last_declared_lookup. }
  split; [|split; [done|split]].
  - intros b t Ht. unfold parsePathParams, Behavior.map. by rewrite Ht.
  - intros Hshort. rewrite Hbind. f_equal. by apply lookup_ge_None_2.
  - intros other Hother. rewrite readParams_lookup.
    rewrite readParams_loop_absent; [done|].
    intros j Hj. apply Hother. by eapply list_elem_of_lookup_2.
Qed.

Lemma readParams_binds_last_declared_witness :
  literals_hold "/users/:id" (split "/" "/posts/42") = false ∧
  (∀ (b : Behavior string) t,
     b t = "/posts/42" → parsePathParams "/users/:id" b t = readParams "/users/:id" "/posts/42") ∧
  readParams "/users/:id" "/posts/42" !! "id" = Some (split "/" "/posts/42" !! 2) ∧
  (length (split "/" "/posts/42") ≤ 2 →
   readParams "/users/:id" "/posts/42" !! "id" = Some None) ∧
  (∀ other, String ":" other ∉ split "/" "/users/:id" →
            readParams "/users/:id" "/posts/42" !! other = None).
Proof.
  split; [reflexivity|].
  apply (readParams_binds_last_declared "/users/:id" "/posts/42" "id" 2).
  - reflexivity.
  - discriminate.
  - vm_compute. apply not_elem_of_nil.
Defined.

(** C10, as stated, fails when a pattern repeats a name: ":a/:a" has [:a] at
    index 0, and against "x/y" the record binds [a] to segment 1, not 0. *)
Lemma readParams_repeated_counterexample :
  split "/" ":a/:a" !! 0 = Some ":a" ∧
  split "/" "x/y" !! 0 = Some "x" ∧
  readParams ":a/:a" "x/y" !! "a" = Some (Some "y") ∧
  readParams ":a/:a" "x/y" !! "a" ≠ Some (split "/" "x/y" !! 0).
Proof. repeat split; by vm_compute. Qed.


(** * Further properties of router.ts *)

(** ** Splitting and joining *)

Lemma split_cons_sep s : split "/" (String "/" s) = "" :: split "/" s.
Proof. done. Qed.

Lemma split_cons_other c s :
  c ≠ "/"%char →
  ∃ part parts, split "/" s = part :: parts ∧
                split "/" (String c s) = String c part :: parts.
Proof.
  intros Hc. pose proof (split_length "/" s) as Hlen. simpl.
  rewrite decide_False by done.
  destruct (split "/" s) as [|part parts]; simpl in Hlen; [lia|].
  by exists part, parts.
Qed.

Lemma join_cons sep part part' parts :
  join sep (part :: part' :: parts) = part +:+ sep +:+ join sep (part' :: parts).
Proof. done. Qed.

Lemma join_split s : join "/" (split "/" s) = s.
Proof.
  induction s as [|c s IH]; [done|].
  destruct (decide (c = "/"%char)) as [->|Hc].
  - rewrite split_cons_sep.
    pose proof (split_length "/" s) as Hlen.
    destruct (split "/" s) as [|part parts] eqn:E; simpl in Hlen; [lia|].
    rewrite join_cons, IH. done.
  - destruct (split_cons_other c s Hc) as (part & parts & E & ->).
    rewrite E in IH. destruct parts as [|part' parts].
    + simpl in *. by subst.
    + rewrite join_cons in *. rewrite string_app_cons. by rewrite IH.
Qed.

Lemma join_app sep (l1 l2 : list string) :
  l1 ≠ [] → l2 ≠ [] →
  join sep (l1 ++ l2) = join sep l1 +:+ sep +:+ join sep l2.
Proof.
  intros Hl1 Hl2. induction l1 as [|part [|part' l1] IH]; [done| |].
  - destruct l2 as [|part2 l2]; [done|]. done.
  - change ((part :: part' :: l1) ++ l2) with (part :: part' :: (l1 ++ l2)).
    rewrite !join_cons. change (part' :: l1 ++ l2) with ((part' :: l1) ++ l2).
    rewrite IH by done. by rewrite !string_app_assoc.
Qed.

Lemma split_app a b :
  split "/" (a +:+ "/" +:+ b) = split "/" a ++ split "/" b.
Proof.
  induction a as [|c a IH]; [done|].
  rewrite string_app_cons.
  destruct (decide (c = "/"%char)) as [->|Hc].
  - rewrite !split_cons_sep, IH. done.
  - destruct (split_cons_other c a Hc) as (part & parts & E & ->).
    simpl. rewrite decide_False by done. rewrite IH, E. done.
Qed.

(** ** The matched path and the remainder together *)

(** X1.  A match cuts the location in two without losing anything: when
    the location has more segments than the matched pattern, the matched
    path followed by the remainder is the location itself; otherwise the
    matched path is the whole location and the remainder is "/". *)
Theorem matchedPath_rest_rebuild_location {A} (routes : Routes A) router location l :
  route (parseRoutes routes) router location = Return l →
  (pp_length (match_ l) < length (split "/" location) →
   matchedPath l +:+ rest l = location) ∧
  (length (split "/" location) ≤ pp_length (match_ l) →
   matchedPath l = location ∧ rest l = "/").
Proof.
  intros Hroute.
  destruct (route_Return_inv _ _ _ _ Hroute) as (pattern & handler & Hfirst).
  rewrite (route_first_compatible _ router _ _ _ Hfirst) in Hroute.
  injection Hroute as <-. simpl. rewrite parsePathPattern_length.
  set (n := length (split "/" pattern)).
  assert (1 ≤ n) by apply split_length.
  split.
  - intros Hlt. rewrite <-(join_split location) at 3.
    rewrite <-(take_drop n (split "/" location)) at 3.
    rewrite join_app; [done| |].
    + intros E. apply (f_equal length) in E. rewrite length_take in E. simpl in E. lia.
    + intros E. apply (f_equal length) in E. rewrite length_drop in E. simpl in E. lia.
  - intros Hge. rewrite take_ge, drop_ge by done. by rewrite join_split.
Qed.

Lemma matchedPath_rest_rebuild_location_witness :
  (pp_length (parsePathPattern "/users/:id" observe) < length (split "/" "/users/42/posts/7") →
   "/users/42" +:+ "/posts/7" = "/users/42/posts/7") ∧
  (length (split "/" "/users/42/posts/7") ≤ pp_length (parsePathPattern "/users/:id" observe) →
   "/users/42" = "/users/42/posts/7" ∧ "/posts/7" = "/").
Proof.
  apply (matchedPath_rest_rebuild_location [("/users/:id", observe)]
           (root "/users/42/posts/7") "/users/42/posts/7"
           {| match_ := parsePathPattern "/users/:id" observe;
              rest := "/posts/7"; matchedPath := "/users/42";
              newRouter := {| prefixPath := "/users/42";
                              path := Behavior.of_ "/posts/7";
                              config := {| useHash := false |} |};
              params := {[ "id" := Some "42" ]} |}).
  by vm_compute.
Defined.

(** ** The order of the routes *)

Lemma find_app_compatible {A} (before after : list (ParsedPathPattern A)) m locationParts :
  compatible locationParts m = true →
  List.find (compatible locationParts) (before ++ m :: after) =
  List.find (compatible locationParts) (before ++ [m]).
Proof.
  intros Hm. induction before as [|m' before IH]; simpl.
  - by rewrite Hm.
  - by destruct (compatible locationParts m').
Qed.

(** X2.  A route that passes the literal test hides every route enumerated
    after it: whatever follows it in the table, the outcome is the one of
    the table cut after that route (so a "*" hides all later routes). *)
Theorem later_routes_are_shadowed {A} (before after : Routes A) pattern handler
    router location :
  literals_hold pattern (split "/" location) = true →
  route (parseRoutes (before ++ (pattern, handler) :: after)) router location =
  route (parseRoutes (before ++ [(pattern, handler)])) router location.
Proof.
  intros Hhold. unfold route, parseRoutes.
  rewrite !fmap_app, !fmap_cons. simpl.
  rewrite find_app_compatible; [done|].
  by rewrite compatible_literals_hold.
Qed.

Lemma later_routes_are_shadowed_witness :
  route (parseRoutes ([("/a", observe)] ++ ("*", observe) :: [("/known/path", observe)]))
        (root "/known/path") "/known/path" =
  route (parseRoutes ([("/a", observe)] ++ [("*", observe)]))
        (root "/known/path") "/known/path".
Proof.
  apply (later_routes_are_shadowed [("/a", observe)] [("/known/path", observe)]
           "*" observe (root "/known/path") "/known/path").
  reflexivity.
Defined.

(** ** Appending segments, and locations that are too short *)

Lemma compatible_app {A} (p : ParsedPathPattern A) locationParts more :
  compatible locationParts p = true →
  compatible (locationParts ++ more) p = true.
Proof.
  unfold compatible, every. rewrite !every_from_spec.
  intros Hall j part Hj. specialize (Hall j part Hj).
  rewrite bool_decide_eq_true in *.
  symmetry. apply lookup_app_l_Some. done.
Qed.

(** X3.  Matching never starts to fail when segments are appended to the
    location: a pattern compatible with a location is compatible with the
    location followed by "/" and anything, and a table that yields a match
    for the one yields a match for the other. *)
Theorem appending_segments_keeps_a_match {A} (routes : Routes A) router router'
    location more l :
  route (parseRoutes routes) router location = Return l →
  compatible (split "/" (location +:+ "/" +:+ more)) (match_ l) = true ∧
  ∃ l', route (parseRoutes routes) router' (location +:+ "/" +:+ more) = Return l'.
Proof.
  unfold route.
  destruct (List.find (compatible (split "/" location)) _) as [m|] eqn:Efind; [|done].
  intros [= <-]. simpl.
  apply find_some in Efind as [Hin Hm].
  assert (compatible (split "/" (location +:+ "/" +:+ more)) m = true) as Hm'
    by (rewrite split_app; by apply compatible_app).
  split; [done|].
  destruct (List.find (compatible (split "/" (location +:+ "/" +:+ more))) _)
    as [m'|] eqn:Efind'; [by eexists|].
  by rewrite (find_none _ _ Efind' m Hin) in Hm'.
Qed.

Lemma appending_segments_keeps_a_match_witness :
  compatible (split "/" ("/a" +:+ "/" +:+ "b/c")) (parsePathPattern "/a" observe) = true ∧
  ∃ l', route (parseRoutes [("/a/b", observe); ("/a", observe)]) (root "/a/b/c")
              ("/a" +:+ "/" +:+ "b/c") = Return l'.
Proof.
  apply (appending_segments_keeps_a_match [("/a/b", observe); ("/a", observe)]
           (root "/a") (root "/a/b/c") "/a" "b/c"
           {| match_ := parsePathPattern "/a" observe;
              rest := "/"; matchedPath := "/a";
              newRouter := {| prefixPath := "/a"; path := Behavior.of_ "/";
                              config := {| useHash := false |} |};
              params := ∅ |}).
  by vm_compute.
Defined.

(** X4.  A literal segment at index [i] of a pattern needs the location to
    have a segment there: a location of at most [i] segments is not matched
    by the pattern, and a table made of that pattern alone throws. *)
Theorem literal_beyond_location_never_matches {A} pattern (handler : Handler A)
    router location i part :
  pattern ≠ "*" →
  split "/" pattern !! i = Some part →
  is_param part = false →
  length (split "/" location) ≤ i →
  compatible (split "/" location) (parsePathPattern pattern handler) = false ∧
  route (parseRoutes [(pattern, handler)]) router location = Throw TypeError.
Proof.
  intros Hstar Hi Hlit Hshort.
  assert (literals_hold pattern (split "/" location) = false) as Hhold.
  { apply not_true_is_false. unfold literals_hold.
    rewrite bool_decide_eq_false_2 by done. simpl.
    rewrite literals_from_spec. intros Hall.
    specialize (Hall i part Hi Hlit). simpl in Hall.
    apply lookup_lt_Some in Hall. lia. }
  split; [by rewrite compatible_literals_hold|].
  apply route_Throw. by repeat constructor.
Qed.

Lemma literal_beyond_location_never_matches_witness :
  compatible (split "/" "/a") (parsePathPattern "/a/:b/c" observe) = false ∧
  route (parseRoutes [("/a/:b/c", observe)]) (root "/a") "/a" = Throw TypeError.
Proof.
  apply (literal_beyond_location_never_matches "/a/:b/c" observe (root "/a") "/a" 3 "c").
  - discriminate.
  - reflexivity.
  - reflexivity.
  - vm_compute. lia.
Defined.

(** ** The parameters of a match and [readParams] *)

Lemma readParams_fmap pattern location :
  readParams pattern location =
  (λ index, split "/" location !! index) <$> readParams_loop 0 (split "/" pattern) ∅.
Proof.
  unfold readParams. by rewrite read_entries by (by rewrite readParams_loop_proto).
Qed.

(** X5.  The parameters [routePath] hands to the handler are those
    [readParams] reads from the same location with the pattern of the route
    selected: the two extractions agree on every match. *)
Theorem route_params_are_readParams {A} (routes : Routes A) router location l :
  route (parseRoutes routes) router location = Return l →
  ∃ pattern handler,
    first_compatible routes (split "/" location) pattern handler ∧
    match_ l = parsePathPattern pattern handler ∧
    params l = readParams pattern location.
Proof.
  intros Hroute.
  destruct (route_Return_inv _ _ _ _ Hroute) as (pattern & handler & Hfirst).
  rewrite (route_first_compatible _ router _ _ _ Hfirst) in Hroute.
  injection Hroute as <-. simpl.
  exists pattern, handler. split; [done|]. split; [done|].
  rewrite readParams_fmap, parsePathPattern_params.
  case_decide as Hstar; [by subst|done].
Qed.

Lemma route_params_are_readParams_witness :
  ∃ pattern handler,
    first_compatible [("/a", observe); ("/users/:id", observe)]
                     (split "/" "/users/42") pattern handler ∧
    parsePathPattern "/users/:id" observe = parsePathPattern pattern handler ∧
    ({[ "id" := Some "42" ]} : ParamsRecord) = readParams pattern "/users/42".
Proof.
  assert (route (parseRoutes [("/a", observe); ("/users/:id", observe)])
                (root "/users/42") "/users/42" =
          Return {| match_ := parsePathPattern "/users/:id" observe;
                    rest := "/"; matchedPath := "/users/42";
                    newRouter := {| prefixPath := "/users/42"; path := Behavior.of_ "/";
                                    config := {| useHash := false |} |};
                    params := {[ "id" := Some "42" ]} |}) as Hroute
    by (by vm_compute).
  exact (route_params_are_readParams _ _ _ _ Hroute).
Defined.

Lemma last_occurrence {X} `{EqDecision X} (x : X) (l : list X) :
  x ∈ l → ∃ k, l !! k = Some x ∧ x ∉ drop (S k) l.
Proof.
  induction l as [|y l IH]; [by intros ?%elem_of_nil|].
  intros Hin. destruct (decide (x ∈ l)) as [Hl|Hl].
  - destruct (IH Hl) as (k & Hk & Hlast). by exists (S k).
  - apply elem_of_cons in Hin as [->|?]; [|done].
    exists 0. split; [done|]. simpl. by rewrite drop_0.
Qed.

(** X6.  The keys of the record [readParams] returns are exactly the names
    the pattern declares with a [:name] segment, [__proto__] excepted,
    whatever the location is: a short or unrelated location changes the
    values, never the keys. *)
Theorem readParams_keys pattern location name :
  is_Some (readParams pattern location !! name) ↔
  name ≠ "__proto__" ∧ String ":" name ∈ split "/" pattern.
Proof.
  rewrite readParams_lookup, fmap_is_Some. split.
  - intros [n Hn].
    apply readParams_loop_lookup_inv in Hn as [Hn|(k & _ & Hk & Hname)]; [done|].
    split; [done|]. by eapply list_elem_of_lookup_2.
  - intros [Hname Hin].
    destruct (last_occurrence _ _ Hin) as (k & Hk & Hlast).
    rewrite (readParams_loop_last 0 _ _ name k) by eauto using last_declared_lookup.
    done.
Qed.

(** ** The compiled pattern *)

Lemma parsePathPattern_loop_path_length {A} i parts (p : ParsedPathPattern A) :
  length (pp_path p) ≤ i →
  length (pp_path (parsePathPattern_loop i parts p)) ≤ i + length parts.
Proof.
  revert i p. induction parts as [|part parts IH]; intros i p Hlen; simpl; [lia|].
  destruct (is_param part).
  - etrans; [apply IH; simpl; lia | lia].
  - etrans; [apply IH; simpl; rewrite array_set_length; lia | lia].
Qed.

(** X7.  A compiled pattern other than "*" mirrors the pattern string: the
    [path] array holds exactly the literal segments, each at its own index,
    and is no longer than the pattern; every entry of [params] points at a
    [:name] segment of that name, so at an index where [path] has a hole or
    has ended. *)
Theorem parsePathPattern_mirrors_pattern {A} pattern (handler : Handler A) :
  pattern ≠ "*" →
  (∀ i part,
     pp_path (parsePathPattern pattern handler) !! i = Some (Some part) ↔
     split "/" pattern !! i = Some part ∧ is_param part = false) ∧
  length (pp_path (parsePathPattern pattern handler))
    ≤ pp_length (parsePathPattern pattern handler) ∧
  (∀ name i,
     pp_params (parsePathPattern pattern handler) !! name = Some i →
     split "/" pattern !! i = Some (String ":" name) ∧
     i < pp_length (parsePathPattern pattern handler) ∧
     ∀ part, pp_path (parsePathPattern pattern handler) !! i ≠ Some (Some part)).
Proof.
  intros Hstar.
  assert (Hpath : ∀ i part,
     pp_path (parsePathPattern pattern handler) !! i = Some (Some part) ↔
     split "/" pattern !! i = Some part ∧ is_param part = false).
  { intros i part. unfold parsePathPattern. rewrite decide_False by done.
    rewrite parsePathPattern_loop_path by (simpl; lia). simpl. split.
    - intros [Hnil|(k & -> & Hk & Hlit)]; [by rewrite lookup_nil in Hnil | done].
    - intros [Hi Hlit]. right. by exists i. }
  split; [done|]. split.
  - rewrite parsePathPattern_length. unfold parsePathPattern.
    rewrite decide_False by done.
    etrans; [apply parsePathPattern_loop_path_length; simpl; lia | done].
  - intros name i Hparam.
    rewrite parsePathPattern_params, decide_False in Hparam by done.
    apply readParams_loop_lookup_inv in Hparam as [Hparam|(k & -> & Hk & _)]; [done|].
    simpl. split; [done|]. split.
    + rewrite parsePathPattern_length. by eapply lookup_lt_Some.
    + intros part Hpart. apply Hpath in Hpart as [Hk' Hlit].
      rewrite Hk in Hk'. by injection Hk' as <-.
Qed.

Lemma parsePathPattern_mirrors_pattern_witness :
  (∀ i part,
     pp_path (parsePathPattern "/users/:id/edit" observe) !! i = Some (Some part) ↔
     split "/" "/users/:id/edit" !! i = Some part ∧ is_param part = false) ∧
  length (pp_path (parsePathPattern "/users/:id/edit" observe))
    ≤ pp_length (parsePathPattern "/users/:id/edit" observe) ∧
  (∀ name i,
     pp_params (parsePathPattern "/users/:id/edit" observe) !! name = Some i →
     split "/" "/users/:id/edit" !! i = Some (String ":" name) ∧
     i < pp_length (parsePathPattern "/users/:id/edit" observe) ∧
     ∀ part, pp_path (parsePathPattern "/users/:id/edit" observe) !! i ≠ Some (Some part)).
Proof.
  apply (parsePathPattern_mirrors_pattern "/users/:id/edit" observe).
  discriminate.
Defined.

(** ** [takeUntilRight] and the hash location *)

Lemma prefix_app (s1 s2 : string) :
  String.prefix s1 s2 = true ↔ ∃ b, s2 = s1 +:+ b.
Proof.
  revert s1. induction s2 as [|c s2 IH]; intros [|d s1]; simpl.
  - split; [by exists "" | done].
  - split; [done | by intros [b ?]].
  - split; [by exists (String c s2) | done].
  - destruct (ascii_dec d c) as [->|Hne].
    + rewrite IH. split; intros [b Hb]; exists b.
      * by rewrite string_app_cons, <-Hb.
      * rewrite string_app_cons in Hb. by injection Hb.
    + split; [done|]. intros [b Hb]. rewrite string_app_cons in Hb. congruence.
Qed.

Lemma indexOf_absent stop str :
  (∀ a b, str ≠ a +:+ stop +:+ b) → JsString.indexOf stop str = (-1)%Z.
Proof.
  induction str as [|c str IH]; intros Habs; cbn [JsString.indexOf].
  - destruct (String.prefix stop "") eqn:E; [|done].
    apply prefix_app in E as [b Hb]. by destruct (Habs "" b).
  - destruct (String.prefix stop (String c str)) eqn:E.
    + apply prefix_app in E as [b Hb]. by destruct (Habs "" b).
    + rewrite IH; [done|]. intros a b ->. by apply (Habs (String c a) b).
Qed.

Lemma indexOf_char c a b :
  c ∉ String.list_ascii_of_string a →
  JsString.indexOf (String c "") (a +:+ String c b) = Z.of_nat (String.length a).
Proof.
  induction a as [|d a IH]; intros Hc.
  - change ("" +:+ String c b) with (String c b). simpl.
    destruct (ascii_dec c c); [by destruct b | done].
  - rewrite string_app_cons. simpl in Hc. apply not_elem_of_cons in Hc as [Hne Hc].
    cbn [JsString.indexOf String.prefix].
    destruct (ascii_dec c d) as [->|_]; [done|].
    rewrite IH by done. rewrite decide_False by lia.
    cbn [String.length]. lia.
Qed.

Lemma substr_app a s n :
  JsString.substr (String.length a + n) (a +:+ s) = JsString.substr n s.
Proof. induction a as [|c a IH]; [done|]. by rewrite string_app_cons. Qed.

Lemma substr_suffix n str : ∃ a, str = a +:+ JsString.substr n str.
Proof.
  revert str. induction n as [|n IH]; intros str; [by exists ""|].
  destruct str as [|c str]; [by exists ""|].
  destruct (IH str) as [a Ha]. exists (String c a).
  rewrite string_app_cons. simpl. by rewrite <-Ha.
Qed.

Lemma takeUntilRight_hash base frag :
  "#"%char ∉ String.list_ascii_of_string base →
  takeUntilRight "#" (base +:+ "#" +:+ frag) = frag.
Proof.
  intros Hbase. unfold takeUntilRight.
  change ("#" +:+ frag) with (String "#" frag).
  rewrite indexOf_char by done.
  replace (Z.to_nat (Z.of_nat (String.length base) + 1))
    with (String.length base + 1) by lia.
  by rewrite substr_app.
Qed.

(** X8.  When [stop] does not occur in [str], [takeUntilRight] returns [str]
    whole ([indexOf] is -1, and -1 + 1 is the start of the string): a URL
    without "#" is taken as the hash path itself. *)
Theorem takeUntilRight_absent stop str :
  (∀ a b, str ≠ a +:+ stop +:+ b) → takeUntilRight stop str = str.
Proof.
  intros Habs. unfold takeUntilRight. by rewrite indexOf_absent.
Qed.

Lemma takeUntilRight_absent_witness :
  takeUntilRight "#" "/a" = "/a".
Proof.
  apply (takeUntilRight_absent "#" "/a").
  intros [|c1 [|c2 [|c3 a]]] b; vm_compute; try discriminate.
  all: destruct a; discriminate.
Defined.

(** X9.  For a one-character [stop], [takeUntilRight] returns what follows
    the first occurrence of that character: everything up to and including
    it is dropped, later occurrences stay. *)
Theorem takeUntilRight_after_first c a b :
  c ∉ String.list_ascii_of_string a →
  takeUntilRight (String c "") (a +:+ String c b) = b.
Proof.
  intros Hc. unfold takeUntilRight. rewrite indexOf_char by done.
  replace (Z.to_nat (Z.of_nat (String.length a) + 1)) with (String.length a + 1) by lia.
  by rewrite substr_app.
Qed.

Lemma takeUntilRight_after_first_witness :
  takeUntilRight "#" ("http://host/page" +:+ "#/a#b") = "/a#b".
Proof.
  apply (takeUntilRight_after_first "#" "http://host/page" "/a#b").
  refine (bool_decide_unpack _ _). by vm_compute.
Defined.

(** X10.  Whatever [stop] is, the result of [takeUntilRight] is a suffix of
    [str]: nothing is added or reordered, and the result is never longer
    than [str]. *)
Theorem takeUntilRight_suffix stop str :
  (∃ a, str = a +:+ takeUntilRight stop str) ∧
  String.length (takeUntilRight stop str) ≤ String.length str.
Proof.
  destruct (substr_suffix (Z.to_nat (JsString.indexOf stop str + 1)) str) as [a Ha].
  split; [by exists a|].
  rewrite Ha at 2. rewrite string_length_app. unfold takeUntilRight. lia.
Qed.

(** X11.  [locationHashB] never starts empty: it starts as the text after
    the "#" of [location.hash], and as "/" when there is none.  The
    "hashchange" listener has no such fallback: for a URL that ends with its
    first "#" it pushes the empty string, which a "/" route does not match
    although it matches the initial "/". *)
Theorem locationHashB_initial_never_empty {A} (handler : Handler A) router :
  (∀ hash, locationHashB_initial hash ≠ "") ∧
  (∀ frag, frag ≠ "" → locationHashB_initial ("#" +:+ frag) = frag) ∧
  locationHashB_initial "" = "/" ∧
  locationHashB_initial "#" = "/" ∧
  (∀ base frag, "#"%char ∉ String.list_ascii_of_string base →
     hashchange_pushed (base +:+ "#" +:+ frag) = frag) ∧
  (∃ l, route (parseRoutes [("/", handler)]) router (locationHashB_initial "#")
        = Return l) ∧
  (∀ base, "#"%char ∉ String.list_ascii_of_string base →
     route (parseRoutes [("/", handler)]) router (hashchange_pushed (base +:+ "#"))
     = Throw TypeError).
Proof.
  assert (Hpushed : ∀ base frag, "#"%char ∉ String.list_ascii_of_string base →
     hashchange_pushed (base +:+ "#" +:+ frag) = frag).
  { intros base frag Hbase. unfold hashchange_pushed.
    by apply takeUntilRight_hash. }
  split; [|split; [|split; [done|split; [done|split; [done|split]]]]].
  - intros hash. unfold locationHashB_initial. by case_decide.
  - intros frag Hfrag. unfold locationHashB_initial.
    change ("#" +:+ frag) with ("" +:+ "#" +:+ frag).
    rewrite takeUntilRight_hash by apply not_elem_of_nil.
    by rewrite decide_False.
  - eexists. reflexivity.
  - intros base Hbase.
    change (base +:+ "#") with (base +:+ "#" +:+ "").
    by rewrite (Hpushed base "" Hbase).
Qed.


(** ** Navigation *)

Lemma descend_inner {A} (levels : list (Routes A)) router t inner matched :
  descend levels router t = Return (inner, matched) →
  prefixPath inner = prefixPath router +:+ String.concat "" matched ∧
  config inner = config router.
Proof.
  revert router inner matched.
  induction levels as [|routes levels IH]; intros router inner matched; simpl.
  - intros [= <- <-]. simpl. by rewrite string_app_empty_r.
  - destruct (route _ _ _) as [e|l] eqn:Eroute; [done|].
    destruct (descend levels (newRouter l) t) as [e|[inner' matched']] eqn:Edesc;
      [done|].
    intros [= <- <-].
    destruct (IH _ _ _ Edesc) as [Hprefix Hconfig].
    rewrite (route_newRouter _ _ _ _ Eroute) in Hprefix, Hconfig.
    cbn [prefixPath config] in Hprefix, Hconfig.
    split; [|done].
    rewrite Hprefix, string_app_assoc. f_equal.
    destruct matched' as [|m matched'']; simpl;
      [by rewrite string_app_empty_r | done].
Qed.

(** X13.  Sub-routers keep the navigation mode of the router they descend
    from, and navigating on the innermost router of a chain of nested
    matches to a relative path issues the absolute URL: the outermost
    prefix, the matched paths of all levels in order, then the path. *)
Theorem navigate_from_descendant_is_absolute {A} (levels : list (Routes A))
    router t inner matched t' path :
  descend levels router t = Return (inner, matched) →
  config inner = config router ∧
  (navigate inner [(t', path)]).1 =
    if useHash (config router)
    then [SetHash (prefixPath router +:+ String.concat "" matched +:+ path)]
    else [PushLocationB (prefixPath router +:+ String.concat "" matched +:+ path);
          PushState (prefixPath router +:+ String.concat "" matched +:+ path)].
Proof.
  intros Hdesc. destruct (descend_inner _ _ _ _ _ Hdesc) as [Hprefix Hconfig].
  split; [done|].
  unfold navigate. simpl. rewrite Hconfig, Hprefix, string_app_assoc.
  by destruct (useHash (config router)).
Qed.

Lemma navigate_from_descendant_is_absolute_witness :
  config {| prefixPath := "/shop/items/7"; path := Behavior.of_ "/edit";
            config := {| useHash := false |} |}
  = config (root "/shop/items/7/edit") ∧
  (navigate {| prefixPath := "/shop/items/7"; path := Behavior.of_ "/edit";
               config := {| useHash := false |} |} [(5, "/delete")]).1 =
    if useHash (config (root "/shop/items/7/edit"))
    then [SetHash (prefixPath (root "/shop/items/7/edit")
                   +:+ String.concat "" ["/shop"; "/items/7"] +:+ "/delete")]
    else [PushLocationB (prefixPath (root "/shop/items/7/edit")
                         +:+ String.concat "" ["/shop"; "/items/7"] +:+ "/delete");
          PushState (prefixPath (root "/shop/items/7/edit")
                     +:+ String.concat "" ["/shop"; "/items/7"] +:+ "/delete")].
Proof.
  apply (navigate_from_descendant_is_absolute
           [[("/shop", observe)]; [("/items/:id", observe)]]
           (root "/shop/items/7/edit") 0).
  by vm_compute.
Defined.

Lemma join_take_drop n (parts : list string) :
  1 ≤ n → n < length parts →
  join "/" (take n parts) +:+ "/" +:+ join "/" (drop n parts) = join "/" parts.
Proof.
  intros Hn Hlt. rewrite <-(take_drop n parts) at 3.
  rewrite join_app; [done| |].
  - intros E. apply (f_equal length) in E. rewrite length_take in E. simpl in E. lia.
  - intros E. apply (f_equal length) in E. rewrite length_drop in E. simpl in E. lia.
Qed.

(** X14.  A handler that navigates its sub-router to the remainder it was
    given asks the host for the URL it was matched from: when the location
    has more segments than the matched pattern, the URL issued is the
    parent's prefix followed by the location. *)
Theorem navigate_to_rest_returns_to_location {A} (routes : Routes A) router
    location l t :
  route (parseRoutes routes) router location = Return l →
  pp_length (match_ l) < length (split "/" location) →
  (navigate (newRouter l) [(t, rest l)]).1 =
    if useHash (config router)
    then [SetHash (prefixPath router +:+ location)]
    else [PushLocationB (prefixPath router +:+ location);
          PushState (prefixPath router +:+ location)].
Proof.
  intros Hroute.
  destruct (route_Return_inv _ _ _ _ Hroute) as (pattern & handler & Hfirst).
  rewrite (route_first_compatible _ router _ _ _ Hfirst) in Hroute.
  injection Hroute as <-. cbn [match_ newRouter rest].
  rewrite parsePathPattern_length. intros Hlt.
  unfold navigate. simpl.
  rewrite string_app_assoc.
  rewrite join_take_drop by (pose proof (split_length "/" pattern); lia).
  rewrite join_split. by destruct (useHash (config router)).
Qed.

Lemma navigate_to_rest_returns_to_location_witness :
  (navigate {| prefixPath := "/users/42"; path := Behavior.of_ "/posts/7";
               config := {| useHash := false |} |} [(3, "/posts/7")]).1 =
    if useHash (config (root "/users/42/posts/7"))
    then [SetHash (prefixPath (root "/users/42/posts/7") +:+ "/users/42/posts/7")]
    else [PushLocationB (prefixPath (root "/users/42/posts/7") +:+ "/users/42/posts/7");
          PushState (prefixPath (root "/users/42/posts/7") +:+ "/users/42/posts/7")].
Proof.
  assert (route (parseRoutes [("/users/:id", observe)])
                (root "/users/42/posts/7") "/users/42/posts/7" =
          Return {| match_ := parsePathPattern "/users/:id" observe;
                    rest := "/posts/7"; matchedPath := "/users/42";
                    newRouter := {| prefixPath := "/users/42";
                                    path := Behavior.of_ "/posts/7";
                                    config := {| useHash := false |} |};
                    params := {[ "id" := Some "42" ]} |}) as Hroute
    by (by vm_compute).
  refine (navigate_to_rest_returns_to_location _ _ _ _ 3 Hroute _).
  vm_compute. lia.
Defined.

(** ** The route tree *)

Section TreeFacts.
Context {A : Type}.
Variable inherited : string → bool.
Implicit Types (parent tree : Tree A) (nodes edges : list string).

Lemma literals_of_cons node nodes :
  literals_of (node :: nodes) =
  if is_param node then literals_of nodes else node :: literals_of nodes.
Proof. unfold literals_of. simpl. by destruct (is_param node). Qed.

Lemma node_at_same_subtree edges parent params index handler n :
  node_at edges parent = Some n →
  ∃ n', node_at edges (mkTree params (t_subtree parent) index handler) = Some n' ∧
        (edges ≠ [] → n' = n) ∧
        (edges = [] → n' = mkTree params (t_subtree parent) index handler).
Proof.
  destruct edges as [|edge edges]; simpl.
  - intros _. eexists. split; [done|]. split; [done|done].
  - intros Hn. exists n. split; [done|]. split; [done|done].
Qed.

Lemma addPath_from_registers index nodes parent handler :
  safe_segments inherited nodes →
  ∃ parent',
    addPath_from inherited index nodes parent handler = (parent', InTree) ∧
    ∃ n, node_at (literals_of nodes) parent' = Some n ∧ t_handler n = Some handler.
Proof.
  revert index parent.
  induction nodes as [|node nodes IH]; intros index parent Hsafe.
  - eexists. split; [done|]. eexists. split; [done|done].
  - apply Forall_cons in Hsafe as [Hnode Hsafe].
    rewrite literals_of_cons. cbn [addPath_from].
    destruct (is_param node) eqn:Enode; [by apply IH|].
    specialize (Hnode eq_refl).
    destruct (t_subtree parent !! node) as [child|] eqn:Echild.
    + destruct (IH (S index) child Hsafe) as (child' & -> & n & Hn & Hh).
      eexists. split; [done|]. exists n. split; [|done].
      simpl. by rewrite lookup_insert_eq.
    + rewrite Hnode.
      destruct (IH (S index) (mkTree ∅ ∅ index None) Hsafe)
        as (child' & -> & n & Hn & Hh).
      eexists. split; [done|]. exists n. split; [|done].
      simpl. by rewrite lookup_insert_eq.
Qed.

Lemma addPath_from_frame index nodes parent handler edges n :
  edges ≠ literals_of nodes →
  node_at edges parent = Some n →
  ∃ n', node_at edges (addPath_from inherited index nodes parent handler).1 = Some n' ∧
        t_handler n' = t_handler n.
Proof.
  revert index parent edges n.
  induction nodes as [|node nodes IH]; intros index parent edges n Hne Hn.
  - destruct edges as [|edge edges]; [done|]. by exists n.
  - rewrite literals_of_cons in Hne. cbn [addPath_from].
    destruct (is_param node) eqn:Enode.
    + destruct (node_at_same_subtree edges parent
                  (<[index := substr1 node]> (t_params parent)) (t_index parent)
                  (t_handler parent) n Hn) as (n0 & Hn0 & Hcons & Hnil).
      destruct (IH (S index) _ edges n0 Hne Hn0) as (n' & Hn' & Hh).
      exists n'. split; [done|]. rewrite Hh.
      destruct edges as [|edge edges].
      * rewrite Hnil by done. simpl in Hn. by injection Hn as <-.
      * by rewrite Hcons.
    + destruct (t_subtree parent !! node) as [child|] eqn:Echild.
      * destruct (addPath_from inherited (S index) nodes child handler)
          as [child' e] eqn:Ewalk.
        destruct edges as [|edge edges].
        -- simpl in *. injection Hn as <-. by eexists.
        -- simpl in Hn. cbn [Datatypes.fst node_at t_subtree].
           destruct (decide (edge = node)) as [->|Hedge].
           ++ rewrite Echild in Hn. rewrite lookup_insert_eq.
              assert (edges ≠ literals_of nodes) as Hne' by congruence.
              destruct (IH (S index) child edges n Hne' Hn) as (n' & Hn' & Hh).
              rewrite Ewalk in Hn'. by exists n'.
           ++ rewrite lookup_insert_ne by done. by exists n.
      * destruct (inherited node); [by exists n|].
        destruct (addPath_from inherited (S index) nodes (mkTree ∅ ∅ index None) handler)
          as [child' e] eqn:Ewalk.
        destruct edges as [|edge edges].
        -- simpl in *. injection Hn as <-. by eexists.
        -- simpl in Hn. cbn [Datatypes.fst node_at t_subtree].
           destruct (decide (edge = node)) as [->|Hedge].
           ++ by rewrite Echild in Hn.
           ++ rewrite lookup_insert_ne by done. by exists n.
Qed.

Lemma addPath_InTree tree path handler tree' :
  addPath_from inherited 0 (split "/" path) tree handler = (tree', InTree) →
  addPath inherited tree path handler = Return tree'.
Proof. intros Hwalk. unfold addPath. by rewrite Hwalk. Qed.

Lemma addPath_Return_fst tree path handler tree' :
  addPath inherited tree path handler = Return tree' →
  (addPath_from inherited 0 (split "/" path) tree handler).1 = tree'.
Proof.
  unfold addPath. destruct (addPath_from _ _ _ _ _) as [t [| |e]]; simpl; congruence.
Qed.

(** X15.  Registering a route whose literal segments are not names that
    objects inherit succeeds, and afterwards the node reached from the root
    along the literal segments of the route, parameter segments skipped,
    holds the route's handler. *)
Theorem addPath_registers_handler tree path handler :
  safe_segments inherited (split "/" path) →
  ∃ tree',
    addPath inherited tree path handler = Return tree' ∧
    ∃ n, node_at (literals_of (split "/" path)) tree' = Some n ∧
         t_handler n = Some handler.
Proof.
  intros Hsafe.
  destruct (addPath_from_registers 0 _ tree handler Hsafe) as (tree' & Hwalk & Hn).
  exists tree'. split; [|done]. by apply addPath_InTree.
Qed.

(** X16.  Registering a route whose literal segments are not names that
    objects inherit leaves every other place of the tree as it was: a node
    that could be reached along edges other than the route's literal
    segments can still be reached, and holds the handler it held. *)
Theorem addPath_keeps_other_handlers tree path handler tree' edges n :
  safe_segments inherited (split "/" path) →
  addPath inherited tree path handler = Return tree' →
  edges ≠ literals_of (split "/" path) →
  node_at edges tree = Some n →
  ∃ n', node_at edges tree' = Some n' ∧ t_handler n' = t_handler n.
Proof.
  intros _ Hadd Hne Hn. apply addPath_Return_fst in Hadd.
  destruct (addPath_from_frame 0 (split "/" path) tree handler edges n Hne Hn)
    as (n' & Hn' & Hh).
  rewrite Hadd in Hn'. by exists n'.
Qed.


Lemma addPath_from_keeps_params index nodes parent handler j :
  j < index →
  t_params (addPath_from inherited index nodes parent handler).1 !! j
  = t_params parent !! j.
Proof.
  revert index parent. induction nodes as [|node nodes IH]; intros index parent Hj;
    [done|].
  cbn [addPath_from]. destruct (is_param node).
  - rewrite IH by lia. simpl. apply lookup_insert_ne. lia.
  - destruct (t_subtree parent !! node) as [child|].
    + by destruct (addPath_from inherited (S index) nodes child handler).
    + destruct (inherited node); [done|].
      by destruct (addPath_from inherited (S index) nodes (mkTree ∅ ∅ index None) handler).
Qed.

Lemma addPath_from_records_param index nodes parent handler k name :
  safe_segments inherited nodes →
  nodes !! k = Some (String ":" name) →
  ∃ n, node_at (literals_of (take k nodes))
               (addPath_from inherited index nodes parent handler).1 = Some n ∧
       t_params n !! (index + k) = Some name.
Proof.
  revert index parent k.
  induction nodes as [|node nodes IH]; intros index parent k Hsafe Hk; [done|].
  apply Forall_cons in Hsafe as [Hnode Hsafe].
  destruct k as [|k].
  - injection Hk as ->. cbn [take literals_of List.filter node_at addPath_from is_param].
    simpl. eexists. split; [done|].
    rewrite addPath_from_keeps_params by lia. simpl.
    rewrite Nat.add_0_r. apply lookup_insert_eq.
  - cbn [take lookup] in *. simpl in Hk. rewrite literals_of_cons. cbn [addPath_from].
    replace (index + S k) with (S index + k) by lia.
    destruct (is_param node) eqn:Enode; [by apply IH|].
    specialize (Hnode eq_refl).
    destruct (t_subtree parent !! node) as [child|] eqn:Echild.
    + destruct (IH (S index) child k Hsafe Hk) as (n & Hn & Hp).
      destruct (addPath_from inherited (S index) nodes child handler) as [child' e].
      exists n. split; [|done]. simpl. by rewrite lookup_insert_eq.
    + rewrite Hnode.
      destruct (IH (S index) (mkTree ∅ ∅ index None) k Hsafe Hk) as (n & Hn & Hp).
      destruct (addPath_from inherited (S index) nodes (mkTree ∅ ∅ index None) handler)
        as [child' e].
      exists n. split; [|done]. simpl. by rewrite lookup_insert_eq.
Qed.

(** X18.  A parameter segment [:name] at index [k] of a registered route
    is recorded, under the key [k], with its name, in the [params] of the
    node reached along the literal segments that precede it: parameters add
    no edge to the tree. *)
Theorem addPath_records_param_on_current_node tree path handler k name :
  safe_segments inherited (split "/" path) →
  split "/" path !! k = Some (String ":" name) →
  ∃ tree' n,
    addPath inherited tree path handler = Return tree' ∧
    node_at (literals_of (take k (split "/" path))) tree' = Some n ∧
    t_params n !! k = Some name.
Proof.
  intros Hsafe Hk.
  destruct (addPath_from_registers 0 _ tree handler Hsafe) as (tree' & Hwalk & _).
  destruct (addPath_from_records_param 0 _ tree handler k name Hsafe Hk)
    as (n & Hn & Hp).
  rewrite Hwalk in Hn. exists tree', n.
  split; [by apply addPath_InTree|]. done.
Qed.

(** A node without children and without handler, as [buildTree] starts
    from and as [addPath] creates. *)
Lemma addPath_from_leaves_tree index pre node post parent handler :
  t_subtree parent = ∅ → t_handler parent = None →
  Forall (λ node, is_param node = true ∨ inherited node = false) pre →
  is_param node = false → inherited node = true →
  let result := addPath_from inherited index (pre ++ node :: post) parent handler in
  result.2 = (if post is [] then OnInherited node else Threw TypeError) ∧
  ∀ edges n, node_at edges result.1 = Some n → t_handler n = None.
Proof.
  intros Hsub Hh Hpre Hlit Hinh. simpl.
  revert index parent Hsub Hh.
  induction Hpre as [|seg pre Hseg _ IH]; intros index parent Hsub Hh.
  - cbn [app addPath_from]. rewrite Hlit, Hsub, lookup_empty, Hinh.
    split; [by destruct post|].
    intros [|edge edges] n; simpl; [by intros [= <-]|].
    by rewrite Hsub, lookup_empty.
  - change ((seg :: pre) ++ node :: post) with (seg :: pre ++ node :: post).
    cbn [addPath_from].
    destruct (is_param seg) eqn:Eseg; [by apply IH|].
    destruct Hseg as [?|Hseg]; [done|].
    rewrite Hsub, lookup_empty, Hseg.
    destruct (IH (S index) (mkTree ∅ ∅ index None) eq_refl eq_refl) as [He Hnone].
    destruct (addPath_from inherited (S index) (pre ++ node :: post)
                (mkTree ∅ ∅ index None) handler) as [child' w].
    split; [done|].
    intros [|edge edges] n; simpl; [by intros [= <-]|].
    destruct (decide (edge = seg)) as [->|Hne].
    + rewrite lookup_insert_eq. apply Hnone.
    + by rewrite lookup_insert_ne, lookup_empty.
Qed.

(** X19.  A literal segment that is a name objects inherit ("constructor",
    "toString", "__proto__", ...) passes the [in] test without being in the
    tree and takes the walk of [addPath] out of it.  On an empty tree, when
    segments follow it the registration throws a [TypeError].  When it is
    the last segment the registration returns, but [handler] has been stored
    on the object that name denotes: in the returned tree no node has a
    [handler] property of its own.  Through "__proto__" that object is
    [Object.prototype], and "handler" is from then on a name that every
    object, the nodes included, inherits. *)
Theorem addPath_inherited_segment_leaves_tree path handler pre node post :
  split "/" path = pre ++ node :: post →
  Forall (λ node, is_param node = true ∨ inherited node = false) pre →
  is_param node = false → inherited node = true →
  (post ≠ [] →
   addPath inherited (mkTree ∅ ∅ 0 None) path handler = Throw TypeError) ∧
  (post = [] →
   ∃ tree',
     addPath_from inherited 0 (split "/" path) (mkTree ∅ ∅ 0 None) handler
     = (tree', OnInherited node) ∧
     addPath inherited (mkTree ∅ ∅ 0 None) path handler = Return tree' ∧
     (∀ edges n, node_at edges tree' = Some n → t_handler n = None) ∧
     (node = "__proto__" →
      inherited_after inherited (mkTree ∅ ∅ 0 None) path handler "handler" = true) ∧
     (node ≠ "__proto__" →
      inherited_after inherited (mkTree ∅ ∅ 0 None) path handler = inherited)).
Proof.
  intros Hsplit Hpre Hlit Hinh.
  destruct (addPath_from_leaves_tree 0 pre node post (mkTree ∅ ∅ 0 None) handler
              eq_refl eq_refl Hpre Hlit Hinh) as [He Hnone].
  unfold addPath, inherited_after. rewrite Hsplit.
  destruct (addPath_from inherited 0 (pre ++ node :: post) (mkTree ∅ ∅ 0 None) handler)
    as [tree' w]. simpl in He, Hnone. subst w.
  split.
  - intros Hpost. by destruct post.
  - intros ->. exists tree'. split; [done|]. split; [done|]. split; [done|].
    simpl. split.
    + intros ->. by rewrite decide_True.
    + intros Hne. by rewrite decide_False.
Qed.

Lemma buildTree_from_registers (routes : Routes A) tree :
  Forall (λ r, safe_segments inherited (split "/" r.1)) routes →
  NoDup ((λ r, literals_of (split "/" r.1)) <$> routes) →
  ∃ tree',
    buildTree_from inherited routes tree = Return tree' ∧
    (∀ path handler, (path, handler) ∈ routes →
       ∃ n, node_at (literals_of (split "/" path)) tree' = Some n ∧
            t_handler n = Some handler) ∧
    (∀ edges n, edges ∉ (λ r, literals_of (split "/" r.1)) <$> routes →
       node_at edges tree = Some n →
       ∃ n', node_at edges tree' = Some n' ∧ t_handler n' = t_handler n).
Proof.
  revert tree. induction routes as [|[path handler] routes IH]; intros tree Hsafe Hnd.
  - exists tree. split; [done|]. split.
    + by intros ?? ?%elem_of_nil.
    + intros edges n _ Hn. by exists n.
  - apply Forall_cons in Hsafe as [Hpath Hsafe]. simpl in Hpath.
    rewrite fmap_cons in Hnd. apply NoDup_cons in Hnd as [Hfresh Hnd]. simpl in Hfresh.
    destruct (addPath_from_registers 0 _ tree handler Hpath)
      as (tree1 & Hwalk & n1 & Hn1 & Hh1).
    destruct (IH tree1 Hsafe Hnd) as (tree' & Hbuild & Hall & Hframe).
    exists tree'. split; [|split].
    + cbn [buildTree_from]. rewrite (addPath_InTree _ _ _ _ Hwalk).
      unfold inherited_after. by rewrite Hwalk.
    + intros path' handler' [[= -> ->]|Hin]%elem_of_cons; [|by apply Hall].
      destruct (Hframe _ n1 Hfresh Hn1) as (n' & Hn' & Hh').
      exists n'. split; [done|]. by rewrite Hh'.
    + intros edges n Hedges Hn.
      rewrite fmap_cons in Hedges. apply not_elem_of_cons in Hedges as [Hne Hedges].
      simpl in Hne.
      destruct (addPath_from_frame 0 (split "/" path) tree handler edges n Hne Hn)
        as (n0 & Hn0 & Hh0).
      rewrite Hwalk in Hn0.
      destruct (Hframe edges n0 Hedges Hn0) as (n' & Hn' & Hh').
      exists n'. split; [done|]. by rewrite Hh', Hh0.
Qed.

(** X20.  [buildTree] registers every route of a table whose routes have
    pairwise different literal segments, none of them an inherited name:
    it returns a tree in which each route's handler is found at the node
    reached along that route's literal segments. *)
Theorem buildTree_registers_every_route (routes : Routes A) :
  Forall (λ r, safe_segments inherited (split "/" r.1)) routes →
  NoDup ((λ r, literals_of (split "/" r.1)) <$> routes) →
  ∃ tree,
    buildTree inherited routes = Return tree ∧
    ∀ path handler, (path, handler) ∈ routes →
      ∃ n, node_at (literals_of (split "/" path)) tree = Some n ∧
           t_handler n = Some handler.
Proof.
  intros Hsafe Hnd.
  destruct (buildTree_from_registers routes (mkTree ∅ ∅ 0 None) Hsafe Hnd)
    as (tree & Hbuild & Hall & _).
  by exists tree.
Qed.

End TreeFacts.

Lemma addPath_registers_handler_witness :
  ∃ tree',
    addPath es_inherited (mkTree ∅ ∅ 0 None) "/users/:id/edit" observe = Return tree' ∧
    ∃ n, node_at (literals_of (split "/" "/users/:id/edit")) tree' = Some n ∧
         t_handler n = Some observe.
Proof.
  apply (addPath_registers_handler es_inherited (mkTree ∅ ∅ 0 None)
           "/users/:id/edit" observe).
  unfold safe_segments. vm_compute. repeat constructor.
Defined.

Lemma addPath_keeps_other_handlers_witness :
  ∃ n', node_at [""; "a"]
          (mkTree ∅ {[ "" := mkTree ∅ {[ "a" := mkTree ∅ ∅ 1 (Some observe);
                                        "b" := mkTree ∅ ∅ 1 (Some observe) ]} 0 None ]}
                  0 None) = Some n' ∧
        t_handler n' = t_handler (mkTree ∅ ∅ 1 (Some observe)).
Proof.
  apply (addPath_keeps_other_handlers es_inherited
           (mkTree ∅ {[ "" := mkTree ∅ {[ "a" := mkTree ∅ ∅ 1 (Some observe) ]} 0 None ]}
                   0 None)
           "/b" observe).
  - unfold safe_segments. vm_compute. repeat constructor.
  - by vm_compute.
  - by vm_compute.
  - by vm_compute.
Defined.


Lemma addPath_records_param_on_current_node_witness :
  ∃ tree' n,
    addPath es_inherited (mkTree ∅ ∅ 0 None) "/users/:id/edit" observe = Return tree' ∧
    node_at (literals_of (take 2 (split "/" "/users/:id/edit"))) tree' = Some n ∧
    t_params n !! 2 = Some "id".
Proof.
  apply (addPath_records_param_on_current_node es_inherited (mkTree ∅ ∅ 0 None)
           "/users/:id/edit" observe 2 "id").
  - unfold safe_segments. vm_compute. repeat constructor.
  - reflexivity.
Defined.

Lemma addPath_inherited_segment_leaves_tree_witness :
  (([] : list string) ≠ [] →
   addPath es_inherited (mkTree ∅ ∅ 0 None) "/api/:v/__proto__" observe
   = Throw TypeError) ∧
  (([] : list string) = [] →
   ∃ tree',
     addPath_from es_inherited 0 (split "/" "/api/:v/__proto__") (mkTree ∅ ∅ 0 None)
                  observe
     = (tree', OnInherited "__proto__") ∧
     addPath es_inherited (mkTree ∅ ∅ 0 None) "/api/:v/__proto__" observe
     = Return tree' ∧
     (∀ edges n, node_at edges tree' = Some n → t_handler n = None) ∧
     ("__proto__" = "__proto__" →
      inherited_after es_inherited (mkTree ∅ ∅ 0 None) "/api/:v/__proto__" observe
                      "handler" = true) ∧
     ("__proto__" ≠ "__proto__" →
      inherited_after es_inherited (mkTree ∅ ∅ 0 None) "/api/:v/__proto__" observe
      = es_inherited)).
Proof.
  apply (addPath_inherited_segment_leaves_tree es_inherited
           "/api/:v/__proto__" observe [""; "api"; ":v"] "__proto__" []).
  - reflexivity.
  - repeat constructor; by (left + right).
  - reflexivity.
  - reflexivity.
Defined.

Lemma addPath_inherited_segment_throws_example :
  addPath es_inherited (mkTree ∅ ∅ 0 None) "/api/constructor/:x" observe
  = Throw TypeError.
Proof. reflexivity. Qed.

Lemma buildTree_registers_every_route_witness :
  ∃ tree,
    buildTree es_inherited [("/", observe); ("/users/:id", observe);
                            ("/users/:id/edit", observe)] = Return tree ∧
    ∀ path handler,
      (path, handler) ∈ [("/", observe); ("/users/:id", observe);
                         ("/users/:id/edit", observe)] →
      ∃ n, node_at (literals_of (split "/" path)) tree = Some n ∧
           t_handler n = Some handler.
Proof.
  apply (buildTree_registers_every_route es_inherited
           [("/", observe); ("/users/:id", observe); ("/users/:id/edit", observe)]).
  - unfold safe_segments. vm_compute. repeat constructor.
  - refine (bool_decide_unpack _ _). by vm_compute.
Defined.

(** ** From a pattern to a location and back *)

Lemma split_no_sep_id part :
  "/"%char ∉ String.list_ascii_of_string part → split "/" part = [part].
Proof.
  induction part as [|c part IH]; [done|]. simpl.
  intros [Hc Hpart]%not_elem_of_cons.
  rewrite decide_False by done. by rewrite IH.
Qed.

Lemma split_parts_no_sep s part :
  part ∈ split "/" s → "/"%char ∉ String.list_ascii_of_string part.
Proof.
  revert part. induction s as [|c s IH]; intros part.
  - intros ->%list_elem_of_singleton. apply not_elem_of_nil.
  - destruct (decide (c = "/"%char)) as [->|Hc].
    + rewrite split_cons_sep. intros [->|Hin]%elem_of_cons; [apply not_elem_of_nil|].
      by apply IH.
    + destruct (split_cons_other c s Hc) as (part0 & parts & E & ->).
      rewrite E in IH.
      intros [->|Hin]%elem_of_cons.
      * simpl. apply not_elem_of_cons. split; [done|]. apply IH. by left.
      * apply IH. by right.
Qed.

Lemma split_join (parts : list string) :
  parts ≠ [] →
  Forall (λ part, "/"%char ∉ String.list_ascii_of_string part) parts →
  split "/" (join "/" parts) = parts.
Proof.
  intros Hne Hparts. induction Hparts as [|part parts Hpart Hparts IH]; [done|].
  destruct parts as [|part' parts]; [by apply split_no_sep_id|].
  rewrite join_cons, split_app, IH by done.
  by rewrite split_no_sep_id.
Qed.

(** X21.  Round trip: take a pattern other than "*", replace every [:name]
    segment by a value free of "/", and join the segments into a location.
    The pattern matches that location, consumes all of it (the remainder is
    "/"), and gives back, for every declared name other than [__proto__],
    the very value put in. *)
Theorem match_recovers_the_values {A} pattern (handler : Handler A) router values :
  pattern ≠ "*" →
  (∀ name, "/"%char ∉ String.list_ascii_of_string (values name)) →
  ∃ l,
    route (parseRoutes [(pattern, handler)]) router (build_location values pattern)
    = Return l ∧
    matchedPath l = build_location values pattern ∧
    rest l = "/" ∧
    ∀ name, name ≠ "__proto__" → String ":" name ∈ split "/" pattern →
            params l !! name = Some (Some (values name)).
Proof.
  intros Hstar Hvalues.
  set (parts := fill_segment values <$> split "/" pattern).
  assert (Hparts : split "/" (build_location values pattern) = parts).
  { apply split_join.
    - intros E. apply (f_equal length) in E. unfold parts in E.
      rewrite length_fmap in E. pose proof (split_length "/" pattern). simpl in E. lia.
    - apply Forall_fmap, Forall_forall. intros part Hpart. simpl.
      unfold fill_segment. destruct (is_param part); [done|].
      by eapply split_parts_no_sep. }
  assert (Hfirst : first_compatible [(pattern, handler)]
                     (split "/" (build_location values pattern)) pattern handler).
  { exists [], []. split; [done|]. split; [done|].
    rewrite Hparts. unfold literals_hold. rewrite bool_decide_eq_false_2 by done.
    simpl. apply literals_from_spec. intros k part Hk Hlit. simpl.
    unfold parts. rewrite list_lookup_fmap, Hk. simpl.
    unfold fill_segment. by rewrite Hlit. }
  eexists. split; [by apply route_first_compatible|]. simpl.
  rewrite Hparts.
  assert (length parts = length (split "/" pattern)) as Hlen
    by (unfold parts; by rewrite length_fmap).
  split; [by rewrite take_ge by lia|]. split; [by rewrite drop_ge by lia|].
  intros name Hname Hin.
  destruct (last_occurrence _ _ Hin) as (k & Hk & Hlast).
  rewrite lookup_fmap, parsePathPattern_params, decide_False by done.
  rewrite (readParams_loop_last 0 _ _ name k) by eauto using last_declared_lookup.
  simpl. f_equal. unfold parts. rewrite list_lookup_fmap, Hk. done.
Qed.

Lemma match_recovers_the_values_witness :
  ∃ l,
    route (parseRoutes [("/users/:id/posts/:post", observe)]) (root "/")
          (build_location (λ name, if decide (name = "id") then "42" else "7")
                          "/users/:id/posts/:post")
    = Return l ∧
    matchedPath l = build_location (λ name, if decide (name = "id") then "42" else "7")
                                   "/users/:id/posts/:post" ∧
    rest l = "/" ∧
    ∀ name, name ≠ "__proto__" → String ":" name ∈ split "/" "/users/:id/posts/:post" →
            params l !! name = Some (Some (if decide (name = "id") then "42" else "7")).
Proof.
  apply (match_recovers_the_values "/users/:id/posts/:post" observe (root "/")
           (λ name, if decide (name = "id") then "42" else "7")).
  - discriminate.
  - intros name. case_decide; refine (bool_decide_unpack _ _); by vm_compute.
Defined.
